(** * The Goal: experimentation engine (scenario comparison and Monte Carlo)

    A shallow embedding of the server logic of [option_a_core.py]
    (multi-scenario comparison) and [option_b_core.py] (Monte Carlo
    simulation), and the properties of the sampler, the statistical
    aggregates and the comparator.

    Numbers.  The Python code computes with floats; here every finite
    number is an exact rational in canonical form ([Qc]), so equality of
    numbers is Leibniz equality and no rounding takes place.  A value
    that is not a finite number (the [nan] and [inf] of numpy) is the
    [None] of [float].  The rationals idealise float64, so the
    properties of the simulation are stated as order relations, as
    counts, and as identities between values that the code obtains from
    the same data by the same expression; what only holds without
    rounding (the mean of equal rows being that row, a sum that does not
    depend on the order of its terms, two percentages adding up to 100)
    is not stated.

    Presentation (HTML, f-string number formatting, charts) is left out:
    every render function returns the numbers and labels it interpolates
    into its markup. *)

From Stdlib Require Import QArith Qcanon Qround Lqa Lia ZArith List String Bool.
From Stdlib Require Import Sorting.Mergesort Sorting.Sorted Sorting.Permutation.
From Stdlib Require Import Orders.
Import ListNotations.

Local Open Scope Qc_scope.

(* ------------------------------------------------------------------ *)
(** ** Rational numbers: from [Qc] to [Q] and back *)

Definition qc (z : Z) : Qc := Q2Qc (inject_Z z).
Definition qcn (n : nat) : Qc := qc (Z.of_nat n).

Lemma this_Q2Qc (q : Q) : (this (Q2Qc q) == q)%Q.
Proof. apply Qred_correct. Qed.

Lemma this_plus (x y : Qc) : (this (x + y) == this x + this y)%Q.
Proof. apply Qred_correct. Qed.

Lemma this_mult (x y : Qc) : (this (x * y) == this x * this y)%Q.
Proof. apply Qred_correct. Qed.

Lemma this_opp (x : Qc) : (this (- x) == - this x)%Q.
Proof. apply Qred_correct. Qed.

Lemma this_minus (x y : Qc) : (this (x - y) == this x - this y)%Q.
Proof. unfold Qcminus. rewrite this_plus, this_opp. reflexivity. Qed.

Lemma this_inv (x : Qc) : (this (/ x) == / this x)%Q.
Proof. apply Qred_correct. Qed.

Lemma this_div (x y : Qc) : (this (x / y) == this x / this y)%Q.
Proof. unfold Qcdiv. rewrite this_mult, this_inv. reflexivity. Qed.

Lemma this_qc (z : Z) : (this (qc z) == inject_Z z)%Q.
Proof. apply Qred_correct. Qed.

Lemma Qc_eq_this (x y : Qc) : x = y <-> (this x == this y)%Q.
Proof.
  split; [intros ->; reflexivity | apply Qc_is_canon].
Qed.

(** [qc_to_Q] turns a goal about [Qc] into the same goal about [Q], where
    [lra], [nra] and [field] apply. *)
Ltac qc_hyps :=
  repeat match goal with
  | H : @eq Qc _ _ |- _ => apply Qc_eq_this in H
  | H : ~ @eq Qc _ _ |- _ => rewrite Qc_eq_this in H
  end.

Ltac qc_push :=
  repeat (rewrite ?this_plus, ?this_minus, ?this_mult, ?this_div,
                  ?this_opp, ?this_inv, ?this_qc, ?this_Q2Qc in * ).

Ltac qc_to_Q :=
  unfold Qcle, Qclt, qcn in *;
  qc_hyps;
  try (apply Qc_is_canon);
  qc_push.

Lemma qc_plus (a b : Z) : qc (a + b) = qc a + qc b.
Proof. qc_to_Q. rewrite inject_Z_plus. reflexivity. Qed.

Lemma qcn_S (n : nat) : qcn (S n) = qcn n + 1.
Proof.
  unfold qcn. rewrite Nat2Z.inj_succ, <- Z.add_1_r. apply qc_plus.
Qed.

Lemma qcn_plus (n m : nat) : qcn (n + m) = qcn n + qcn m.
Proof. unfold qcn. rewrite Nat2Z.inj_add. apply qc_plus. Qed.

Lemma qcn_nonneg (n : nat) : 0 <= qcn n.
Proof.
  qc_to_Q. change 0%Q with (inject_Z 0).
  rewrite <- Zle_Qle. lia.
Qed.

Lemma qcn_pos (n : nat) : (0 < n)%nat -> 0 < qcn n.
Proof.
  intros Hn. qc_to_Q. change 0%Q with (inject_Z 0).
  rewrite <- Zlt_Qlt. lia.
Qed.

(** Boolean comparisons, as Python evaluates [<], [<=] and [==]. *)
Definition Qcltb (x y : Qc) : bool :=
  match x ?= y with Lt => true | _ => false end.
Definition Qcleb (x y : Qc) : bool :=
  match x ?= y with Gt => false | _ => true end.
Definition Qceqb (x y : Qc) : bool :=
  match x ?= y with Eq => true | _ => false end.

Lemma Qcltb_lt (x y : Qc) : Qcltb x y = true <-> x < y.
Proof.
  unfold Qcltb, Qclt, Qccompare, Qlt, Qcompare, Z.lt.
  destruct (_ ?= _)%Z; split; congruence.
Qed.

Lemma Qcltb_ge (x y : Qc) : Qcltb x y = false <-> y <= x.
Proof.
  rewrite <- Bool.not_true_iff_false, Qcltb_lt. split.
  - apply Qcnot_lt_le.
  - apply Qcle_not_lt.
Qed.

Lemma Qcleb_le (x y : Qc) : Qcleb x y = true <-> x <= y.
Proof.
  unfold Qcleb, Qcle, Qccompare, Qle, Qcompare, Z.le.
  destruct (_ ?= _)%Z; split; congruence.
Qed.

Lemma Qceqb_eq (x y : Qc) : Qceqb x y = true <-> x = y.
Proof.
  unfold Qceqb. rewrite (Qceq_alt x y).
  destruct (x ?= y); split; congruence.
Qed.

Lemma Qceqb_refl (x : Qc) : Qceqb x x = true.
Proof. apply Qceqb_eq. reflexivity. Qed.

(* ------------------------------------------------------------------ *)
(** ** Python: exceptions, builtins *)

Inductive exn : Type :=
| KeyError (key : string)
| IndexError
| ValueError
| OracleError.

(** A computation that may raise: [inl e] is the exception [e]. *)
Definition res (A : Type) : Type := (exn + A)%type.

Definition ret {A} (a : A) : res A := inr a.
Definition raise {A} (e : exn) : res A := inl e.
Definition bind {A B} (m : res A) (k : A -> res B) : res B :=
  match m with inl e => inl e | inr a => k a end.

Notation "x <- m ;; k" := (bind m (fun x => k))
  (at level 61, m at next level, right associativity).

(** A float: [Some q] is the finite number [q]; [None] is a value that is
    not a finite number ([nan], [inf]). *)
Definition float : Type := option Qc.

Definition flift2 (op : Qc -> Qc -> Qc) (a b : float) : float :=
  match a, b with Some x, Some y => Some (op x y) | _, _ => None end.
Definition fsub := flift2 Qcminus.
Definition fmul := flift2 Qcmult.

(** numpy division: a zero divisor gives [inf] or [nan] (with a warning),
    never a finite number. *)
Definition fdiv (a b : float) : float :=
  match a, b with
  | Some x, Some y => if Qceqb y 0 then None else Some (x / y)
  | _, _ => None
  end.

(** [max(a, b)]: the first argument is kept unless the second is
    strictly greater. *)
Definition py_max (a b : Qc) : Qc := if Qcltb a b then b else a.

(** [max(a, b, c)], and [max] of a non-empty list. *)
Definition py_max3 (a b c : Qc) : Qc := py_max (py_max a b) c.
Definition py_max_list (x : Qc) (l : list Qc) : Qc := fold_left py_max l x.

(** [int(x)]: truncation toward zero. *)
Definition py_int (x : Qc) : Z := Z.quot (Qnum x) (Zpos (Qden x)).

(** [l.index(v)]: position of the first element equal to [v]. *)
Fixpoint py_index (v : Qc) (l : list Qc) : res nat :=
  match l with
  | [] => raise ValueError
  | x :: l' => if Qceqb x v then ret 0%nat
               else i <- py_index v l' ;; ret (S i)
  end.

Definition sum (l : list Qc) : Qc := fold_right Qcplus 0 l.

(* ------------------------------------------------------------------ *)
(** ** pandas: Series and DataFrame *)

Module QcOrder <: TotalLeBool.
Definition t := Qc.
Definition leb := Qcleb.
Lemma leb_total : forall x y, leb x y = true \/ leb y x = true.
Proof.
  intros x y. unfold leb. rewrite !Qcleb_le.
  destruct (Qclt_le_dec x y) as [H | H]; [left; apply Qclt_le_weak, H | right; exact H].
Qed.
End QcOrder.

Module QcSort := Sort QcOrder.

Module Series.

(** [s.mean()]: [nan] on an empty Series. *)
Definition mean (s : list Qc) : float :=
  match s with
  | [] => None
  | _ => Some (sum s / qcn (List.length s))
  end.

(** [s.var()], with pandas' default [ddof=1]; [s.std()] is its square
    root.  [nan] when there are fewer than two values. *)
Definition var (s : list Qc) : float :=
  match mean s with
  | None => None
  | Some m =>
      if (List.length s <=? 1)%nat then None
      else Some (sum (map (fun x => (x - m) * (x - m)) s)
                 / qcn (List.length s - 1))
  end.

(** [s.quantile(q)], pandas' default linear interpolation: on the
    sorted values [xs] of length [n] the virtual index is
    [h = (n - 1) * q], and the result interpolates between
    [xs[floor h]] and its successor.  [ValueError] when [q] is outside
    [0, 1]; [nan] on an empty Series. *)
Definition quantile (s : list Qc) (q : Qc) : res float :=
  if Qcltb q 0 || Qcltb 1 q then raise ValueError
  else
    match QcSort.sort s with
    | [] => ret None
    | (x0 :: _) as xs =>
        let h := qcn (List.length xs - 1) * q in
        let lo := Z.to_nat (Qfloor h) in
        let hi := Nat.min (S lo) (List.length xs - 1) in
        let g := h - qc (Qfloor h) in
        ret (Some (nth lo xs x0 + g * (nth hi xs x0 - nth lo xs x0)))
    end.

(** [(s >= t)], [(s < t)], [(s > t)]: element-wise comparison. *)
Definition ge (s : list Qc) (t : Qc) : list bool := map (fun x => Qcleb t x) s.
Definition lt (s : list Qc) (t : Qc) : list bool := map (fun x => Qcltb x t) s.
Definition gt (s : list Qc) (t : Qc) : list bool := map (fun x => Qcltb t x) s.

(** [.mean()] of a boolean Series: the fraction of [True]. *)
Definition mean_bool (s : list bool) : float :=
  mean (map (fun b : bool => if b then 1 else 0) s).

(** [s.value_counts()]: the distinct values with their number of
    occurrences, most frequent first (equal counts stay in first-seen
    order). *)
Fixpoint distinct (s : list string) : list string :=
  match s with
  | [] => []
  | x :: s' => x :: filter (fun y => negb (String.eqb x y)) (distinct s')
  end.

Fixpoint insert_by_count (e : string * nat) (l : list (string * nat))
  : list (string * nat) :=
  match l with
  | [] => [e]
  | e' :: l' => if (snd e' <? snd e)%nat then e :: l
                else e' :: insert_by_count e l'
  end.

Definition value_counts (s : list string) : list (string * nat) :=
  fold_left (fun acc e => insert_by_count e acc)
    (map (fun v => (v, count_occ string_dec s v)) (distinct s)) [].

End Series.

(* ------------------------------------------------------------------ *)
(** ** The optimization oracle: [create_goal_optimization_model] *)

(** The keyword arguments of the oracle. *)
Record Scenario : Type := mkScenario {
  heat_treatment_capacity : Qc;
  machining_capacity : Qc;
  assembly_capacity : Qc;
  demand_a : Qc;
  demand_b : Qc;
  profit_a : Qc;
  profit_b : Qc
}.

(** The result dict of the oracle. *)
Record OptResult : Type := mkOptResult {
  total_throughput : Qc;
  product_a : Qc;
  product_b : Qc;
  bottleneck : string;
  heat_treatment_utilization : Qc
}.

(** The oracle ([the_goal_optimization]) is outside the two files: it is a
    parameter of everything below, a function of its arguments that may
    raise. *)
Definition Oracle : Type := Scenario -> res OptResult.

(** One row of the simulation results: the dict appended per trial. *)
Record Row : Type := mkRow {
  throughput : Qc;
  row_product_a : Qc;
  row_product_b : Qc;
  row_bottleneck : string;
  ht_utilization : Qc
}.

(** A DataFrame built from a list of row dicts.  pandas takes the
    columns from the keys of the dicts: [pd.DataFrame([])] has no column
    at all, and [df[col]] raises [KeyError] for a column that is not
    there. *)
Record DataFrame : Type := mkDataFrame {
  columns : list string;
  rows : list Row
}.

Definition row_keys : list string :=
  ["throughput"; "product_a"; "product_b"; "bottleneck"; "ht_utilization"]%string.

Definition pd_DataFrame (results : list Row) : DataFrame :=
  {| columns := match results with [] => [] | _ :: _ => row_keys end;
     rows := results |}.

(** [df[col]], for a column whose cells are read with [proj]. *)
Definition getitem {A} (df : DataFrame) (col : string) (proj : Row -> A)
  : res (list A) :=
  if existsb (String.eqb col) (columns df) then ret (map proj (rows df))
  else raise (KeyError col).

(** [len(df)] *)
Definition len (df : DataFrame) : nat := List.length (rows df).

(* ------------------------------------------------------------------ *)
(** ** option_b_core.py: Monte Carlo simulation *)

Module OptionB.

(** The Shiny inputs read by the server. *)
Record Input : Type := mkInput {
  n_sims : nat;
  base_heat : Qc;
  base_mach : Qc;
  base_assy : Qc;
  base_dema : Qc;
  base_demb : Qc;
  base_profa : Qc;
  base_profb : Qc;
  demand_unc : Qc;
  capacity_unc : Qc;
  price_unc : Qc;
  target : option Qc
}.

(** The ranges of the sliders of [app_ui]. *)
Definition in_range (lo hi : Z) (x : Qc) : Prop := qc lo <= x /\ x <= qc hi.

Definition slider_ranges (inp : Input) : Prop :=
  (100 <= n_sims inp <= 2000)%nat /\
  in_range 80 240 (base_heat inp) /\
  in_range 100 300 (base_mach inp) /\
  in_range 100 300 (base_assy inp) /\
  in_range 0 100 (base_dema inp) /\
  in_range 0 150 (base_demb inp) /\
  in_range 50 150 (base_profa inp) /\
  in_range 30 100 (base_profb inp) /\
  in_range 0 50 (demand_unc inp) /\
  in_range 0 30 (capacity_unc inp) /\
  in_range 0 40 (price_unc inp).

(** *** The random source

    numpy's global generator: [tape] is the sequence of standard normal
    variates it will deliver, [pos] the number already consumed. *)
Record Rng : Type := mkRng { tape : nat -> Qc; pos : nat }.

Definition Rand (A : Type) : Type := Rng -> res (A * Rng).

Definition rret {A} (a : A) : Rand A := fun g => inr (a, g).
Definition rbind {A B} (m : Rand A) (k : A -> Rand B) : Rand B :=
  fun g => match m g with inl e => inl e | inr (a, g') => k a g' end.
Definition lift {A} (m : res A) : Rand A :=
  fun g => match m with inl e => inl e | inr a => inr (a, g) end.

Notation "x <~ m ;; k" := (rbind m (fun x => k))
  (at level 61, m at next level, right associativity).

(** [np.random.normal(loc, scale)]: [loc + scale * z] for the next
    standard normal variate [z]; numpy raises [ValueError] on a negative
    [scale]. *)
Definition np_random_normal (loc scale : Qc) : Rand Qc :=
  fun g =>
    if Qcltb scale 0 then inl ValueError
    else inr (loc + scale * tape g (pos g),
              {| tape := tape g; pos := S (pos g) |}).

(** *** [baseline] *)
Definition base_scenario (inp : Input) : Scenario :=
  {| heat_treatment_capacity := base_heat inp;
     machining_capacity := base_mach inp;
     assembly_capacity := base_assy inp;
     demand_a := base_dema inp;
     demand_b := base_demb inp;
     profit_a := base_profa inp;
     profit_b := base_profb inp |}.

Definition baseline (oracle : Oracle) (inp : Input) : res OptResult :=
  oracle (base_scenario inp).

(** *** [run_simulation]

    "Generate random variations": the seven draws of one trial, in the
    order of the source, each floored with [max]. *)
Definition generate (inp : Input) : Rand Scenario :=
  demand_a <~ np_random_normal (base_dema inp)
                (base_dema inp * demand_unc inp / qc 100) ;;
  let demand_a := py_max 0 demand_a in
  demand_b <~ np_random_normal (base_demb inp)
                (base_demb inp * demand_unc inp / qc 100) ;;
  let demand_b := py_max 0 demand_b in
  heat_treatment <~ np_random_normal (base_heat inp)
                (base_heat inp * capacity_unc inp / qc 100) ;;
  let heat_treatment := py_max (qc 50) heat_treatment in
  machining <~ np_random_normal (base_mach inp)
                (base_mach inp * capacity_unc inp / qc 100) ;;
  let machining := py_max (qc 50) machining in
  assembly <~ np_random_normal (base_assy inp)
                (base_assy inp * capacity_unc inp / qc 100) ;;
  let assembly := py_max (qc 50) assembly in
  profit_a <~ np_random_normal (base_profa inp)
                (base_profa inp * price_unc inp / qc 100) ;;
  let profit_a := py_max (qc 10) profit_a in
  profit_b <~ np_random_normal (base_profb inp)
                (base_profb inp * price_unc inp / qc 100) ;;
  let profit_b := py_max (qc 10) profit_b in
  rret {| heat_treatment_capacity := heat_treatment;
          machining_capacity := machining;
          assembly_capacity := assembly;
          demand_a := demand_a;
          demand_b := demand_b;
          profit_a := profit_a;
          profit_b := profit_b |}.

Definition row_of (result : OptResult) : Row :=
  {| throughput := total_throughput result;
     row_product_a := product_a result;
     row_product_b := product_b result;
     row_bottleneck := bottleneck result;
     ht_utilization := heat_treatment_utilization result |}.

(** One iteration of the loop: sample, solve, append.  (The calls on
    the progress bar are added in [loop_traced].) *)
Definition trial (oracle : Oracle) (inp : Input) (results : list Row)
  : Rand (list Row) :=
  s <~ generate inp ;;
  result <~ lift (oracle s) ;;
  rret (results ++ [row_of result]).

(** [for i in range(n)]: the remaining [n] iterations. *)
Fixpoint trials (oracle : Oracle) (inp : Input) (n : nat) (results : list Row)
  : Rand (list Row) :=
  match n with
  | O => rret results
  | S n' => results' <~ trial oracle inp results ;;
            trials oracle inp n' results'
  end.

(** The value stored in [simulation_data], and the generator afterwards. *)
Definition run_simulation (oracle : Oracle) (inp : Input) : Rand DataFrame :=
  results <~ trials oracle inp (n_sims inp) [] ;;
  rret (pd_DataFrame results).

(** *** The progress bar of [run_simulation]

    The calls on [p = ui.Progress(min=0, max=n_sims)], in the order they
    are made: [p.set(message=..., detail=...)] before the loop and
    [p.set(i, message=f"Running simulation {i}/{n_sims}")] inside it. *)
Inductive ProgressCall : Type :=
| SetMessage
| SetValue (i n_sims : nat).

(** A computation that also calls the progress bar; the calls made are
    kept when the computation raises. *)
Definition Traced (A : Type) : Type :=
  Rng -> list ProgressCall * res (A * Rng).

(** "Update progress every 50 iterations": the calls at the head of
    iteration [i]. *)
Definition update_progress (i n_sims : nat) : list ProgressCall :=
  if (i mod 50 =? 0)%nat then [SetValue i n_sims] else [].

(** [for i in range(n_sims)] from the index [i] on, with [n] iterations
    left: the progress update, then the body [trial]; an exception of the
    body leaves the loop. *)
Fixpoint loop_traced (oracle : Oracle) (inp : Input) (i n : nat)
  (results : list Row) (g : Rng) {struct n}
  : list ProgressCall * res (list Row * Rng) :=
  match n with
  | O => ([], inr (results, g))
  | S n' =>
      let calls := update_progress i (n_sims inp) in
      match trial oracle inp results g with
      | inl e => (calls, inl e)
      | inr (results', g') =>
          let (calls', r) := loop_traced oracle inp (S i) n' results' g' in
          (calls ++ calls', r)
      end
  end.

(** [run_simulation] with its calls on the progress bar. *)
Definition run_simulation_traced (oracle : Oracle) (inp : Input)
  : Traced DataFrame :=
  fun g =>
    let (calls, r) := loop_traced oracle inp 0 (n_sims inp) [] g in
    (SetMessage :: calls,
     match r with
     | inl e => inl e
     | inr (results, g') => inr (pd_DataFrame results, g')
     end).

(** The multiples of 50 below [m], in increasing order: the indices at
    which [m] iterations update the progress bar. *)
Definition progress_updates (m : nat) : list nat :=
  filter (fun i => (i mod 50 =? 0)%nat) (seq 0 m).

(** *** [simulation_status]: the number of completed simulations shown
    in the banner, nothing before the first run. *)
Definition simulation_status (simulation_data : option DataFrame) : option nat :=
  match simulation_data with
  | None => None
  | Some df => Some (len df)
  end.

(** *** [key_metrics] *)
Record KeyMetrics : Type := mkKeyMetrics {
  mean_throughput : float;
  percentile_5 : float;
  percentile_95 : float;
  (** the square of [std_throughput] (a square root is not rational) *)
  std_throughput_squared : float;
  delta_mean : float;
  delta_5 : float;
  delta_95 : float
}.

Definition q005 : Qc := Q2Qc (5 # 100).
Definition q095 : Qc := Q2Qc (95 # 100).

Definition key_metrics (oracle : Oracle) (inp : Input)
  (simulation_data : option DataFrame) : res (option KeyMetrics) :=
  match simulation_data with
  | None => ret None
  | Some df =>
      base <- baseline oracle inp ;;
      t1 <- getitem df "throughput" throughput ;;
      let mean_throughput := Series.mean t1 in
      t2 <- getitem df "throughput" throughput ;;
      percentile_5 <- Series.quantile t2 q005 ;;
      t3 <- getitem df "throughput" throughput ;;
      percentile_95 <- Series.quantile t3 q095 ;;
      t4 <- getitem df "throughput" throughput ;;
      let variance := Series.var t4 in
      let delta_mean := fsub mean_throughput (Some (total_throughput base)) in
      let delta_5 := fsub percentile_5 (Some (total_throughput base)) in
      let delta_95 := fsub percentile_95 (Some (total_throughput base)) in
      ret (Some {| mean_throughput := mean_throughput;
                   percentile_5 := percentile_5;
                   percentile_95 := percentile_95;
                   std_throughput_squared := variance;
                   delta_mean := delta_mean;
                   delta_5 := delta_5;
                   delta_95 := delta_95 |})
  end.

(** *** [probability_result] *)
Record Probability : Type := mkProbability {
  used_target : Qc;
  prob_exceed : float;
  prob_below : float
}.

Definition probability_result (oracle : Oracle) (inp : Input)
  (simulation_data : option DataFrame) : res (option Probability) :=
  match simulation_data with
  | None => ret None
  | Some df =>
      base <- baseline oracle inp ;;
      let target :=
        match target inp with
        | None => qc (py_int (total_throughput base))
        | Some t => if Qceqb t 0 then qc (py_int (total_throughput base))
                    else t
        end in
      t1 <- getitem df "throughput" throughput ;;
      let prob_exceed := fmul (Series.mean_bool (Series.ge t1 target))
                              (Some (qc 100)) in
      t2 <- getitem df "throughput" throughput ;;
      let prob_below := fmul (Series.mean_bool (Series.lt t2 target))
                             (Some (qc 100)) in
      ret (Some {| used_target := target;
                   prob_exceed := prob_exceed;
                   prob_below := prob_below |})
  end.

(** *** [confidence_intervals] *)
Record CIRow : Type := mkCIRow {
  Confidence : Qc;
  Lower_Bound : float;
  Upper_Bound : float;
  Range : float
}.

Definition confidence_levels : list Qc :=
  [qc 50; qc 80; qc 90; qc 95; qc 99].

(** The body of the [for conf in confidence_levels] loop. *)
Definition ci_row (df : DataFrame) (conf : Qc) : res CIRow :=
  let lower := (qc 100 - conf) / qc 2 in
  let upper := conf + lower in
  t1 <- getitem df "throughput" throughput ;;
  lower_bound <- Series.quantile t1 (lower / qc 100) ;;
  t2 <- getitem df "throughput" throughput ;;
  upper_bound <- Series.quantile t2 (upper / qc 100) ;;
  ret {| Confidence := conf;
         Lower_Bound := lower_bound;
         Upper_Bound := upper_bound;
         Range := fsub upper_bound lower_bound |}.

Fixpoint ci_loop (df : DataFrame) (levels : list Qc) (ci_data : list CIRow)
  : res (list CIRow) :=
  match levels with
  | [] => ret ci_data
  | conf :: levels' =>
      row <- ci_row df conf ;;
      ci_loop df levels' (ci_data ++ [row])
  end.

(** Before any simulation the table is the empty [pd.DataFrame()]. *)
Definition confidence_intervals (simulation_data : option DataFrame)
  : res (list CIRow) :=
  match simulation_data with
  | None => ret []
  | Some df => ci_loop df confidence_levels []
  end.

(** *** [insights] *)
Record Insights : Type := mkInsights {
  mean_vs_baseline : float;
  prob_above_baseline : float;
  worst_case : float;
  worst_case_pct : float;
  best_case : float;
  best_case_pct : float;
  most_common_bottleneck : string;
  bottleneck_pct : float
}.

(** [(p / base - 1) * 100] *)
Definition pct_vs (p : float) (base : Qc) : float :=
  fmul (fsub (fdiv p (Some base)) (Some 1)) (Some (qc 100)).

Definition insights (oracle : Oracle) (inp : Input)
  (simulation_data : option DataFrame) : res (option Insights) :=
  match simulation_data with
  | None => ret None
  | Some df =>
      base <- baseline oracle inp ;;
      t1 <- getitem df "throughput" throughput ;;
      let mean_throughput := Series.mean t1 in
      t2 <- getitem df "throughput" throughput ;;
      percentile_5 <- Series.quantile t2 q005 ;;
      t3 <- getitem df "throughput" throughput ;;
      percentile_95 <- Series.quantile t3 q095 ;;
      t4 <- getitem df "throughput" throughput ;;
      let prob_above_baseline :=
        fmul (Series.mean_bool (Series.gt t4 (total_throughput base)))
             (Some (qc 100)) in
      b <- getitem df "bottleneck" row_bottleneck ;;
      let bottleneck_counts := Series.value_counts b in
      match bottleneck_counts with
      | [] => raise IndexError
      | (most_common_bottleneck, count) :: _ =>
          let bottleneck_pct :=
            fmul (fdiv (Some (qcn count)) (Some (qcn (len df))))
                 (Some (qc 100)) in
          ret (Some {| mean_vs_baseline :=
                         fsub mean_throughput (Some (total_throughput base));
                       prob_above_baseline := prob_above_baseline;
                       worst_case := percentile_5;
                       worst_case_pct := pct_vs percentile_5 (total_throughput base);
                       best_case := percentile_95;
                       best_case_pct := pct_vs percentile_95 (total_throughput base);
                       most_common_bottleneck := most_common_bottleneck;
                       bottleneck_pct := bottleneck_pct |})
      end
  end.

End OptionB.

(* ------------------------------------------------------------------ *)
(** ** option_a_core.py: multi-scenario comparison *)

Module OptionA.

(** The inputs of one scenario panel ([name1], [heat1], ...). *)
Record ScenarioInput : Type := mkScenarioInput {
  in_name : string;
  in_heat : Qc;
  in_mach : Qc;
  in_assy : Qc;
  in_dema : Qc;
  in_demb : Qc;
  in_profa : Qc;
  in_profb : Qc
}.

Record Input : Type := mkInput {
  panel1 : ScenarioInput;
  panel2 : ScenarioInput;
  panel3 : ScenarioInput
}.

(** An oracle result with the ['name'] key added to it. *)
Record Named : Type := mkNamed {
  name : string;
  result : OptResult
}.

(** The dict [{'s1': result1, 's2': result2, 's3': result3}]. *)
Record Results : Type := mkResults {
  s1 : Named;
  s2 : Named;
  s3 : Named
}.

Definition solve (oracle : Oracle) (p : ScenarioInput) : res Named :=
  r <- oracle {| heat_treatment_capacity := in_heat p;
                 machining_capacity := in_mach p;
                 assembly_capacity := in_assy p;
                 demand_a := in_dema p;
                 demand_b := in_demb p;
                 profit_a := in_profa p;
                 profit_b := in_profb p |} ;;
  ret {| name := in_name p; result := r |}.

Definition solve_scenarios (oracle : Oracle) (inp : Input) : res Results :=
  result1 <- solve oracle (panel1 inp) ;;
  result2 <- solve oracle (panel2 inp) ;;
  result3 <- solve oracle (panel3 inp) ;;
  ret {| s1 := result1; s2 := result2; s3 := result3 |}.

Definition tp (r : Named) : Qc := total_throughput (result r).

(** [create_scenario_card_html]: the card shows the result and, when
    [is_best], the green border and the BEST badge. *)
Record Card : Type := mkCard {
  card_result : Named;
  card_best : bool
}.

Definition create_scenario_card_html (r : Named) (is_best : bool) : Card :=
  {| card_result := r; card_best := is_best |}.

(** The three card renderers, after [results = solve_scenarios()]. *)
Definition scenario1_card (results : Results) : Card :=
  let best_throughput :=
    py_max3 (tp (s1 results)) (tp (s2 results)) (tp (s3 results)) in
  let is_best := Qceqb (tp (s1 results)) best_throughput in
  create_scenario_card_html (s1 results) is_best.

Definition scenario2_card (results : Results) : Card :=
  let best_throughput :=
    py_max3 (tp (s1 results)) (tp (s2 results)) (tp (s3 results)) in
  let is_best := Qceqb (tp (s2 results)) best_throughput in
  create_scenario_card_html (s2 results) is_best.

Definition scenario3_card (results : Results) : Card :=
  let best_throughput :=
    py_max3 (tp (s1 results)) (tp (s2 results)) (tp (s3 results)) in
  let is_best := Qceqb (tp (s3 results)) best_throughput in
  create_scenario_card_html (s3 results) is_best.

(** [throughput_chart]: the bar of a scenario is green when its
    throughput equals the maximum. *)
Definition throughput_chart (results : Results) : list (string * Qc * bool) :=
  let names := [name (s1 results); name (s2 results); name (s3 results)] in
  let throughputs := [tp (s1 results); tp (s2 results); tp (s3 results)] in
  let max_throughput := py_max_list (tp (s1 results))
                          [tp (s2 results); tp (s3 results)] in
  map (fun nt => (fst nt, snd nt, Qceqb (snd nt) max_throughput))
      (combine names throughputs).

(** *** [insights] *)

(** [list(set(l))].  A Python set of strings is iterated in hash order,
    and string hashes are salted per process: the order is a parameter.
    What Python guarantees is [set_iteration]: each member of [l] once. *)
Definition set_iteration (list_set : list string -> list string) : Prop :=
  forall l, NoDup (list_set l) /\ (forall x, In x (list_set l) <-> In x l).

Inductive BottleneckBox : Type :=
| Bottleneck_Shift (listed : list string)
| Consistent_Bottleneck (b : string).

Record Insights : Type := mkInsights {
  best_name : string;
  best_throughput : Qc;
  (** the Improvement box: absolute and percentage, when it is shown *)
  improvement_box : option (Qc * Qc);
  bottleneck_box : BottleneckBox
}.

Definition insights (list_set : list string -> list string)
  (results : Results) : res Insights :=
  let throughputs := [tp (s1 results); tp (s2 results); tp (s3 results)] in
  best_idx <- py_index (py_max_list (tp (s1 results))
                          [tp (s2 results); tp (s3 results)]) throughputs ;;
  best_result <- match nth_error [s1 results; s2 results; s3 results] best_idx with
                 | Some r => ret r
                 | None => raise IndexError
                 end ;;
  let best_name := name best_result in
  let baseline_throughput := tp (s1 results) in
  let best_throughput := tp best_result in
  let improvement := best_throughput - baseline_throughput in
  let improvement_pct :=
    if Qcltb 0 baseline_throughput
    then (improvement / baseline_throughput) * qc 100
    else 0 in
  let improvement_box :=
    if negb (best_idx =? 0)%nat then Some (improvement, improvement_pct)
    else None in
  let bottlenecks := [bottleneck (result (s1 results));
                      bottleneck (result (s2 results));
                      bottleneck (result (s3 results))] in
  let unique_bottlenecks := list_set bottlenecks in
  box <- (if (1 <? List.length unique_bottlenecks)%nat
          then ret (Bottleneck_Shift unique_bottlenecks)
          else match unique_bottlenecks with
               | b :: _ => ret (Consistent_Bottleneck b)
               | [] => raise IndexError
               end) ;;
  ret {| best_name := best_name;
         best_throughput := best_throughput;
         improvement_box := improvement_box;
         bottleneck_box := box |}.

End OptionA.

(* ------------------------------------------------------------------ *)
(** * Properties *)

(** ** Python builtins *)

Lemma py_max_ge_l (a b : Qc) : a <= py_max a b.
Proof.
  unfold py_max. destruct (Qcltb a b) eqn:E.
  - apply Qclt_le_weak, Qcltb_lt, E.
  - apply Qcle_refl.
Qed.

Lemma py_max_ge_r (a b : Qc) : b <= py_max a b.
Proof.
  unfold py_max. destruct (Qcltb a b) eqn:E.
  - apply Qcle_refl.
  - apply Qcltb_ge, E.
Qed.

Lemma py_max_above (a b : Qc) : a <= b -> py_max a b = b.
Proof.
  intros H. unfold py_max. destruct (Qcltb a b) eqn:E; [reflexivity|].
  apply Qcltb_ge in E. apply Qcle_antisym; assumption.
Qed.

Lemma py_max_cases (a b : Qc) : py_max a b = a \/ py_max a b = b.
Proof. unfold py_max. destruct (Qcltb a b); auto. Qed.

(** ** The sampler *)

(** The feasibility floors. *)
Definition floored (s : Scenario) : Prop :=
  0 <= demand_a s /\ 0 <= demand_b s /\
  qc 50 <= heat_treatment_capacity s /\
  qc 50 <= machining_capacity s /\
  qc 50 <= assembly_capacity s /\
  qc 10 <= profit_a s /\ qc 10 <= profit_b s.

Ltac split_normal H :=
  repeat match type of H with
  | context [if Qcltb ?a 0 then _ else _] =>
      let E := fresh "Escale" in
      destruct (Qcltb a 0) eqn:E; [discriminate H|]
  end.

Lemma generate_floored (inp : OptionB.Input) (g g' : OptionB.Rng) (s : Scenario) :
  OptionB.generate inp g = inr (s, g') -> floored s.
Proof.
  unfold OptionB.generate, OptionB.rbind, OptionB.np_random_normal, OptionB.rret.
  intros H. cbn [OptionB.tape OptionB.pos] in H.
  split_normal H.
  injection H as <- _.
  unfold floored; cbn; repeat split; apply py_max_ge_l.
Qed.

Lemma scale_nonneg (loc unc : Qc) : 0 <= loc -> 0 <= unc -> Qcltb (loc * unc / qc 100) 0 = false.
Proof.
  intros Hl Hu. apply Qcltb_ge.
  assert (Hp : 0 <= loc * unc).
  { replace 0 with (0 * unc) by ring. apply Qcmult_le_compat_r; assumption. }
  qc_to_Q.
  apply Qle_shift_div_l; [reflexivity | lra].
Qed.

Lemma generate_returns (inp : OptionB.Input) (g : OptionB.Rng) :
  0 <= OptionB.demand_unc inp -> 0 <= OptionB.capacity_unc inp ->
  0 <= OptionB.price_unc inp ->
  0 <= OptionB.base_dema inp -> 0 <= OptionB.base_demb inp ->
  0 <= OptionB.base_heat inp -> 0 <= OptionB.base_mach inp ->
  0 <= OptionB.base_assy inp ->
  0 <= OptionB.base_profa inp -> 0 <= OptionB.base_profb inp ->
  exists s, OptionB.generate inp g
            = inr (s, {| OptionB.tape := OptionB.tape g;
                         OptionB.pos := (OptionB.pos g + 7)%nat |}).
Proof.
  intros. unfold OptionB.generate, OptionB.rbind, OptionB.np_random_normal, OptionB.rret.
  cbn [OptionB.tape OptionB.pos].
  rewrite !scale_nonneg by assumption.
  cbn [OptionB.tape OptionB.pos].
  eexists. do 3 f_equal. lia.
Qed.

Lemma trials_oracle_ext (oracle oracle' : Oracle) (inp : OptionB.Input) :
  (forall s, floored s -> oracle s = oracle' s) ->
  forall n results g,
    OptionB.trials oracle inp n results g = OptionB.trials oracle' inp n results g.
Proof.
  intros Hext. induction n as [|n IH]; intros results g; [reflexivity|].
  cbn [OptionB.trials]. unfold OptionB.trial, OptionB.rbind.
  destruct (OptionB.generate inp g) as [e | [s g']] eqn:E; [reflexivity|].
  rewrite <- (Hext s (generate_floored _ _ _ _ E)).
  unfold OptionB.lift. destruct (oracle s) as [e | r]; [reflexivity|].
  cbn. apply IH.
Qed.

(** Concrete inputs on which the statements below are exercised: the
    default slider values, an oracle that sells the whole demand, and a
    generator whose variates are all [-1000] or all [3]. *)
Definition demand_oracle : Oracle := fun s =>
  ret {| total_throughput := profit_a s * demand_a s + profit_b s * demand_b s;
         product_a := demand_a s;
         product_b := demand_b s;
         bottleneck := "machining";
         heat_treatment_utilization := qc 100 |}.

Definition default_input (n : nat) (d c p : Z) : OptionB.Input :=
  {| OptionB.n_sims := n;
     OptionB.base_heat := qc 160; OptionB.base_mach := qc 200;
     OptionB.base_assy := qc 180;
     OptionB.base_dema := qc 50; OptionB.base_demb := qc 80;
     OptionB.base_profa := qc 90; OptionB.base_profb := qc 60;
     OptionB.demand_unc := qc d; OptionB.capacity_unc := qc c;
     OptionB.price_unc := qc p;
     OptionB.target := None |}.

Definition constant_rng (z : Z) : OptionB.Rng :=
  {| OptionB.tape := fun _ => qc z; OptionB.pos := 0 |}.

(** C1. Floor invariant: whatever the base values and the normal
    variates, with non-negative uncertainty percentages every scenario
    the sampler produces has demands at least 0, capacities at least 50
    and profits at least 10; the simulation passes the oracle nothing
    else (its outcome only depends on the oracle at floored scenarios);
    and with non-negative base values the sampler does produce one. *)
Theorem floor_invariant (oracle : Oracle) (inp : OptionB.Input) :
  0 <= OptionB.demand_unc inp -> 0 <= OptionB.capacity_unc inp ->
  0 <= OptionB.price_unc inp ->
  (forall g s g', OptionB.generate inp g = inr (s, g') -> floored s) /\
  (forall oracle', (forall s, floored s -> oracle s = oracle' s) ->
     forall g, OptionB.run_simulation oracle inp g
               = OptionB.run_simulation oracle' inp g) /\
  (0 <= OptionB.base_dema inp -> 0 <= OptionB.base_demb inp ->
   0 <= OptionB.base_heat inp -> 0 <= OptionB.base_mach inp ->
   0 <= OptionB.base_assy inp ->
   0 <= OptionB.base_profa inp -> 0 <= OptionB.base_profb inp ->
   forall g, exists s g', OptionB.generate inp g = inr (s, g')).
Proof.
  intros Hd Hc Hp. split; [|split].
  - intros g s g'. apply generate_floored.
  - intros oracle' Hext g. unfold OptionB.run_simulation, OptionB.rbind.
    rewrite (trials_oracle_ext oracle oracle' inp Hext). reflexivity.
  - intros. destruct (generate_returns inp g) as [s Hs]; try assumption.
    eauto.
Qed.

Lemma floor_invariant_witness :
  exists s g',
    OptionB.generate (default_input 500 20 10 15) (constant_rng (-1000))
    = inr (s, g') /\ floored s.
Proof.
  destruct (OptionB.generate (default_input 500 20 10 15) (constant_rng (-1000)))
    as [e | [s g']] eqn:E.
  - vm_compute in E. discriminate E.
  - exists s, g'. split; [reflexivity|].
    refine (proj1 (floor_invariant demand_oracle (default_input 500 20 10 15) _ _ _)
                  _ s g' E);
      vm_compute; discriminate.
Defined.

(** ** Zero uncertainty *)

Lemma zero_scale (loc : Qc) : loc * 0 / qc 100 = 0.
Proof. unfold Qcdiv. ring. Qed.

Definition advance (g : OptionB.Rng) (k : nat) : OptionB.Rng :=
  {| OptionB.tape := OptionB.tape g; OptionB.pos := (OptionB.pos g + k)%nat |}.

Lemma normal_zero_scale (loc : Qc) (g : OptionB.Rng) :
  OptionB.np_random_normal loc 0 g = inr (loc, advance g 1).
Proof.
  unfold OptionB.np_random_normal, advance. cbn.
  do 2 f_equal; [ring | f_equal; lia].
Qed.

Lemma advance_advance (g : OptionB.Rng) (a b : nat) :
  advance (advance g a) b = advance g (a + b).
Proof. unfold advance; cbn. f_equal. lia. Qed.

Definition above_floors (inp : OptionB.Input) : Prop :=
  0 <= OptionB.base_dema inp /\ 0 <= OptionB.base_demb inp /\
  qc 50 <= OptionB.base_heat inp /\ qc 50 <= OptionB.base_mach inp /\
  qc 50 <= OptionB.base_assy inp /\
  qc 10 <= OptionB.base_profa inp /\ qc 10 <= OptionB.base_profb inp.

Definition zero_uncertainty (inp : OptionB.Input) : Prop :=
  OptionB.demand_unc inp = 0 /\ OptionB.capacity_unc inp = 0 /\
  OptionB.price_unc inp = 0.

Lemma Qcle_trans' (a b c : Qc) : a <= b -> b <= c -> a <= c.
Proof. apply Qcle_trans. Qed.

Lemma slider_above_floors (inp : OptionB.Input) :
  OptionB.slider_ranges inp -> above_floors inp.
Proof.
  unfold OptionB.slider_ranges, OptionB.in_range, above_floors.
  intros (_ & [H1 _] & [H2 _] & [H3 _] & [H4 _] & [H5 _] & [H6 _] & [H7 _] & _).
  repeat split;
    first [ assumption
          | eapply Qcle_trans'; [|eassumption]; vm_compute; discriminate ].
Qed.

Lemma generate_zero_uncertainty (inp : OptionB.Input) (g : OptionB.Rng) :
  zero_uncertainty inp -> above_floors inp ->
  OptionB.generate inp g = inr (OptionB.base_scenario inp, advance g 7).
Proof.
  intros (Hd & Hc & Hp) (F1 & F2 & F3 & F4 & F5 & F6 & F7).
  unfold OptionB.generate. rewrite Hd, Hc, Hp, !zero_scale.
  unfold OptionB.rbind, OptionB.rret.
  rewrite !normal_zero_scale, !py_max_above by assumption.
  rewrite !advance_advance. reflexivity.
Qed.

Lemma trials_zero_uncertainty (oracle : Oracle) (inp : OptionB.Input) (b : OptResult) :
  zero_uncertainty inp -> above_floors inp ->
  OptionB.baseline oracle inp = inr b ->
  forall n results g,
    OptionB.trials oracle inp n results g
    = inr (results ++ repeat (OptionB.row_of b) n, advance g (7 * n)).
Proof.
  intros Hz Hf Hb. induction n as [|n IH]; intros results g.
  - cbn. unfold OptionB.rret, advance. rewrite app_nil_r.
    destruct g; cbn. do 3 f_equal. lia.
  - cbn [OptionB.trials]. unfold OptionB.rbind at 1. unfold OptionB.trial, OptionB.rbind.
    rewrite (generate_zero_uncertainty inp g Hz Hf).
    unfold OptionB.baseline in Hb. rewrite Hb. cbn [OptionB.lift OptionB.rret].
    rewrite IH, advance_advance, <- app_assoc. cbn [app repeat].
    do 3 f_equal. lia.
Qed.

Lemma qcn_neq0 (n : nat) : (0 < n)%nat -> qcn n <> 0.
Proof.
  intros Hn E. pose proof (qcn_pos n Hn) as H. rewrite E in H.
  exact (Qclt_not_eq _ _ H eq_refl).
Qed.

(** C9. Zero-uncertainty determinism: with the three uncertainty
    percentages at 0 and base values not below the floors (the slider
    ranges guarantee it, [slider_above_floors]), every trial samples the
    base scenario exactly, whatever the generator delivers; so when the
    baseline evaluation returns [b], the simulation returns a Dataset of
    [n_sims] rows, each a copy of the baseline's row.  The throughput
    column is [n_sims] times the baseline throughput and has no spread:
    any two trials differ by 0, which is what a variance of zero means
    for the data. *)
Theorem zero_uncertainty_determinism (oracle : Oracle) (inp : OptionB.Input)
  (b : OptResult) (g : OptionB.Rng) :
  zero_uncertainty inp -> above_floors inp ->
  OptionB.baseline oracle inp = inr b ->
  (forall g0, OptionB.generate inp g0
              = inr (OptionB.base_scenario inp, advance g0 7)) /\
  exists df g',
    OptionB.run_simulation oracle inp g = inr (df, g') /\
    rows df = repeat (OptionB.row_of b) (OptionB.n_sims inp) /\
    len df = OptionB.n_sims inp /\
    (forall r, In r (rows df) -> throughput r = total_throughput b) /\
    (forall r r', In r (rows df) -> In r' (rows df) ->
                  throughput r = throughput r' /\
                  throughput r - throughput r' = 0) /\
    ((0 < OptionB.n_sims inp)%nat ->
     getitem df "throughput" throughput
     = inr (repeat (total_throughput b) (OptionB.n_sims inp))).
Proof.
  intros Hz Hf Hb. split.
  - intros g0. apply generate_zero_uncertainty; assumption.
  - unfold OptionB.run_simulation, OptionB.rbind.
    rewrite (trials_zero_uncertainty oracle inp b Hz Hf Hb). cbn [app].
    eexists. eexists. split; [reflexivity|].
    cbn [rows pd_DataFrame]. split; [reflexivity|]. split.
    { unfold len. cbn [rows pd_DataFrame]. apply repeat_length. }
    split.
    { intros r Hr. apply repeat_spec in Hr. subst r. reflexivity. }
    split.
    { intros r r' Hr Hr'. apply repeat_spec in Hr, Hr'. subst r r'.
      split; [reflexivity | ring]. }
    intros Hn. destruct (OptionB.n_sims inp) as [|n] eqn:En; [lia|].
    transitivity (@inr exn _ (map throughput (repeat (OptionB.row_of b) (S n))));
      [reflexivity | rewrite map_repeat; reflexivity].
Qed.

Lemma zero_uncertainty_determinism_witness :
  exists df g',
    OptionB.run_simulation demand_oracle (default_input 500 0 0 0) (constant_rng 3)
    = inr (df, g') /\ len df = 500%nat.
Proof.
  assert (Hz : zero_uncertainty (default_input 500 0 0 0))
    by (repeat split; reflexivity).
  assert (Hf : above_floors (default_input 500 0 0 0))
    by (repeat split; vm_compute; discriminate).
  destruct (zero_uncertainty_determinism demand_oracle (default_input 500 0 0 0)
              _ (constant_rng 3) Hz Hf eq_refl)
    as (_ & df & g' & Hrun & _ & Hlen & _).
  exists df, g'. split; assumption.
Defined.

(** ** Quantiles *)

Lemma floor_bounds (h : Qc) : qc (Qfloor h) <= h /\ h < qc (Qfloor h) + 1.
Proof.
  split; qc_to_Q.
  - apply Qfloor_le.
  - change 1%Q with (inject_Z 1). rewrite <- inject_Z_plus. apply Qlt_floor.
Qed.

Lemma floor_mono (h1 h2 : Qc) : h1 <= h2 -> (Qfloor h1 <= Qfloor h2)%Z.
Proof. apply Qfloor_resp_le. Qed.

Lemma floor_nonneg (h : Qc) : 0 <= h -> (0 <= Qfloor h)%Z.
Proof. intros H. apply (floor_mono 0 h H). Qed.

Lemma floor_le_nat (h : Qc) (n : nat) :
  h <= qcn n -> (Qfloor h <= Z.of_nat n)%Z.
Proof.
  intros H. rewrite <- (Qfloor_Z (Z.of_nat n)).
  apply Qfloor_resp_le. qc_to_Q. exact H.
Qed.

Lemma lerp_bounds (a b g : Qc) :
  a <= b -> 0 <= g -> g <= 1 -> a <= a + g * (b - a) /\ a + g * (b - a) <= b.
Proof. intros Hab H0 H1. split; qc_to_Q; nra. Qed.

Lemma lerp_mono (a b g1 g2 : Qc) :
  a <= b -> g1 <= g2 -> a + g1 * (b - a) <= a + g2 * (b - a).
Proof. intros Hab Hg. qc_to_Q. nra. Qed.

Lemma sorted_nth (xs : list Qc) (d : Qc) :
  StronglySorted Qcle xs ->
  forall i j, (i <= j < List.length xs)%nat -> nth i xs d <= nth j xs d.
Proof.
  induction 1 as [|x xs Hs IH Hx]; intros i j Hij; [cbn in Hij; lia|].
  destruct j as [|j].
  - replace i with 0%nat by lia. apply Qcle_refl.
  - destruct i as [|i].
    + cbn [nth]. rewrite Forall_forall in Hx. apply Hx, nth_In.
      cbn in Hij. lia.
    + cbn [nth]. apply IH. cbn in Hij. lia.
Qed.

Lemma sort_sorted (s : list Qc) : StronglySorted Qcle (QcSort.sort s).
Proof.
  assert (H : StronglySorted (fun x y => is_true (Qcleb x y)) (QcSort.sort s)).
  { apply QcSort.StronglySorted_sort.
    intros x y z Hxy Hyz. unfold is_true in *.
    rewrite Qcleb_le in *. eapply Qcle_trans; eassumption. }
  induction H as [|x xs Hs IH Hx]; constructor; [exact IH|].
  rewrite Forall_forall in *. intros y Hy. apply Qcleb_le, Hx, Hy.
Qed.

Lemma sort_length (s : list Qc) : List.length (QcSort.sort s) = List.length s.
Proof. symmetry. apply Permutation_length, QcSort.Permuted_sort. Qed.

(** The interpolation step of [Series.quantile] on the sorted values. *)
Definition interpolate (xs : list Qc) (x0 h : Qc) : Qc :=
  let lo := Z.to_nat (Qfloor h) in
  let hi := Nat.min (S lo) (List.length xs - 1) in
  nth lo xs x0 + (h - qc (Qfloor h)) * (nth hi xs x0 - nth lo xs x0).

Lemma quantile_nonempty (s : list Qc) (q : Qc) :
  s <> [] -> 0 <= q -> q <= 1 ->
  exists x0,
    Series.quantile s q
    = inr (Some (interpolate (QcSort.sort s) x0
                   (qcn (List.length s - 1) * q))).
Proof.
  intros Hs H0 H1. unfold Series.quantile.
  apply Qcltb_ge in H0, H1. rewrite H0, H1. cbn [orb].
  pose proof (sort_length s) as Hlen.
  destruct (QcSort.sort s) as [|x0 xs] eqn:E.
  - destruct s; [congruence | cbn in Hlen; lia].
  - exists x0. unfold ret, interpolate. rewrite <- Hlen. reflexivity.
Qed.

Lemma interpolate_bounds (xs : list Qc) (x0 h : Qc) :
  StronglySorted Qcle xs -> 0 <= h -> h <= qcn (List.length xs - 1) ->
  xs <> [] ->
  let lo := Z.to_nat (Qfloor h) in
  let hi := Nat.min (S lo) (List.length xs - 1) in
  (lo <= hi < List.length xs)%nat /\
  nth lo xs x0 <= interpolate xs x0 h /\ interpolate xs x0 h <= nth hi xs x0.
Proof.
  intros Hs H0 Hn Hne lo hi.
  assert (Hlen : (0 < List.length xs)%nat) by (destruct xs; [congruence | cbn; lia]).
  pose proof (floor_nonneg h H0) as Hf0.
  pose proof (floor_le_nat h _ Hn) as Hfn.
  assert (Hlo : (lo <= List.length xs - 1)%nat) by (unfold lo; lia).
  assert (Hidx : (lo <= hi < List.length xs)%nat) by (unfold hi; lia).
  split; [exact Hidx|].
  destruct (floor_bounds h) as [Hb1 Hb2].
  unfold interpolate. fold lo. fold hi.
  apply lerp_bounds.
  - apply sorted_nth; assumption.
  - qc_to_Q. lra.
  - qc_to_Q. lra.
Qed.

Lemma interpolate_mono (xs : list Qc) (x0 h1 h2 : Qc) :
  StronglySorted Qcle xs -> xs <> [] ->
  0 <= h1 -> h1 <= h2 -> h2 <= qcn (List.length xs - 1) ->
  interpolate xs x0 h1 <= interpolate xs x0 h2.
Proof.
  intros Hs Hne H0 H12 Hn.
  assert (H2 : 0 <= h2) by (eapply Qcle_trans; eassumption).
  assert (H1n : h1 <= qcn (List.length xs - 1)) by (eapply Qcle_trans; eassumption).
  destruct (interpolate_bounds xs x0 h1 Hs H0 H1n Hne) as (Hi1 & Hl1 & Hu1).
  destruct (interpolate_bounds xs x0 h2 Hs H2 Hn Hne) as (Hi2 & Hl2 & Hu2).
  pose proof (floor_mono h1 h2 H12) as Hf.
  pose proof (floor_nonneg h1 H0) as Hf0.
  destruct (Z.eq_dec (Qfloor h1) (Qfloor h2)) as [E | NE].
  - unfold interpolate. rewrite E. apply lerp_mono.
    + apply sorted_nth; [assumption|]. rewrite <- E. exact Hi1.
    + qc_to_Q. lra.
  - eapply Qcle_trans; [exact Hu1|]. eapply Qcle_trans; [|exact Hl2].
    apply sorted_nth; [assumption|]. lia.
Qed.

Lemma quantile_mono (s : list Qc) (q1 q2 : Qc) :
  s <> [] -> 0 <= q1 -> q1 <= q2 -> q2 <= 1 ->
  exists v1 v2,
    Series.quantile s q1 = inr (Some v1) /\
    Series.quantile s q2 = inr (Some v2) /\ v1 <= v2.
Proof.
  intros Hs H0 H12 H1.
  assert (H2 : 0 <= q2) by (eapply Qcle_trans; eassumption).
  assert (H1' : q1 <= 1) by (eapply Qcle_trans; eassumption).
  unfold Series.quantile.
  apply Qcltb_ge in H0 as B1, H1' as B2, H2 as B3, H1 as B4.
  rewrite B1, B2, B3, B4. cbn [orb].
  pose proof (sort_length s) as Hlen. pose proof (sort_sorted s) as Hsorted.
  destruct (QcSort.sort s) as [|x0 xs] eqn:E.
  { destruct s; [congruence | cbn in Hlen; lia]. }
  eexists. eexists. split; [reflexivity|]. split; [reflexivity|].
  set (n1 := qcn (List.length (x0 :: xs) - 1)).
  assert (Hn1 : 0 <= n1) by apply qcn_nonneg.
  apply (interpolate_mono (x0 :: xs) x0 (n1 * q1) (n1 * q2)).
  - exact Hsorted.
  - discriminate.
  - qc_to_Q. nra.
  - qc_to_Q. nra.
  - fold n1. qc_to_Q. nra.
Qed.

(** ** The aggregates on a non-empty Dataset *)

Ltac qinv_consts :=
  repeat match goal with
  | |- context [Qinv (Zpos ?a # ?b)] =>
      change (Qinv (Zpos a # b)) with (Zpos b # a)
  | H : context [Qinv (Zpos ?a # ?b)] |- _ =>
      change (Qinv (Zpos a # b)) with (Zpos b # a) in H
  end.

Ltac qc_lra := qc_to_Q; unfold inject_Z, Qdiv in *; qinv_consts; lra.

Lemma getitem_throughput (results : list Row) :
  results <> [] ->
  getitem (pd_DataFrame results) "throughput" throughput
  = inr (map throughput results).
Proof. destruct results; [congruence | reflexivity]. Qed.

Lemma getitem_bottleneck (results : list Row) :
  results <> [] ->
  getitem (pd_DataFrame results) "bottleneck" row_bottleneck
  = inr (map row_bottleneck results).
Proof. destruct results; [congruence | reflexivity]. Qed.

Lemma map_nonempty {A B} (f : A -> B) (l : list A) : l <> [] -> map f l <> [].
Proof. destruct l; [congruence | discriminate]. Qed.

Lemma mean_nonempty (s : list Qc) :
  s <> [] -> Series.mean s = Some (sum s / qcn (List.length s)).
Proof. destruct s; [congruence | reflexivity]. Qed.

Lemma q005_q095 : 0 <= OptionB.q005 /\ OptionB.q005 <= OptionB.q095 /\ OptionB.q095 <= 1.
Proof. repeat split; vm_compute; discriminate. Qed.

Lemma key_metrics_spec (oracle : Oracle) (inp : OptionB.Input)
  (results : list Row) (base : OptResult) :
  results <> [] -> OptionB.baseline oracle inp = inr base ->
  exists m p5 p95,
    Series.mean (map throughput results) = Some m /\
    Series.quantile (map throughput results) OptionB.q005 = inr (Some p5) /\
    Series.quantile (map throughput results) OptionB.q095 = inr (Some p95) /\
    p5 <= p95 /\
    OptionB.key_metrics oracle inp (Some (pd_DataFrame results))
    = inr (Some {| OptionB.mean_throughput := Some m;
                   OptionB.percentile_5 := Some p5;
                   OptionB.percentile_95 := Some p95;
                   OptionB.std_throughput_squared :=
                     Series.var (map throughput results);
                   OptionB.delta_mean := Some (m - total_throughput base);
                   OptionB.delta_5 := Some (p5 - total_throughput base);
                   OptionB.delta_95 := Some (p95 - total_throughput base) |}).
Proof.
  intros Hne Hb.
  destruct q005_q095 as (H0 & H1 & H2).
  destruct (quantile_mono (map throughput results) _ _
              (map_nonempty _ _ Hne) H0 H1 H2) as (p5 & p95 & E5 & E95 & Hle).
  exists (sum (map throughput results) / qcn (List.length (map throughput results))), p5, p95.
  pose proof (mean_nonempty _ (map_nonempty throughput _ Hne)) as Em.
  repeat split; try assumption.
  unfold OptionB.key_metrics. rewrite Hb. cbn [bind].
  rewrite !getitem_throughput by assumption. cbn [bind].
  rewrite E5, E95, Em. reflexivity.
Qed.

(** The percentile levels of one confidence level. *)
Definition lower_level (conf : Qc) : Qc := (qc 100 - conf) / qc 2 / qc 100.
Definition upper_level (conf : Qc) : Qc :=
  (qc 100 - (qc 100 - conf) / qc 2) / qc 100.

Lemma upper_level_eq (conf : Qc) :
  (conf + (qc 100 - conf) / qc 2) / qc 100 = upper_level conf.
Proof.
  unfold upper_level. qc_to_Q. unfold inject_Z. field.
Qed.

Lemma ci_row_spec (results : list Row) (conf : Qc) :
  results <> [] -> 0 <= conf -> conf <= qc 100 ->
  exists l u,
    Series.quantile (map throughput results) (lower_level conf) = inr (Some l) /\
    Series.quantile (map throughput results) (upper_level conf) = inr (Some u) /\
    l <= u /\
    OptionB.ci_row (pd_DataFrame results) conf
    = inr {| OptionB.Confidence := conf;
             OptionB.Lower_Bound := Some l;
             OptionB.Upper_Bound := Some u;
             OptionB.Range := Some (u - l) |}.
Proof.
  intros Hne H0 H100.
  destruct (quantile_mono (map throughput results)
              (lower_level conf) (upper_level conf) (map_nonempty _ _ Hne))
    as (l & u & El & Eu & Hle).
  - unfold lower_level. qc_lra.
  - unfold lower_level, upper_level. qc_lra.
  - unfold upper_level. qc_lra.
  - exists l, u. repeat split; try assumption.
    unfold OptionB.ci_row. rewrite !getitem_throughput by assumption.
    cbn [bind]. rewrite upper_level_eq.
    fold (lower_level conf). rewrite El, Eu. reflexivity.
Qed.

(** What a row of the confidence-interval table holds, for the
    throughput Series [s]. *)
Definition ci_row_ok (s : list Qc) (row : OptionB.CIRow) : Prop :=
  Series.quantile s (lower_level (OptionB.Confidence row))
  = inr (OptionB.Lower_Bound row) /\
  Series.quantile s (upper_level (OptionB.Confidence row))
  = inr (OptionB.Upper_Bound row) /\
  exists l u, OptionB.Lower_Bound row = Some l /\
              OptionB.Upper_Bound row = Some u /\
              l <= u /\ OptionB.Range row = Some (u - l).

Lemma ci_loop_spec (results : list Row) :
  results <> [] ->
  forall levels acc,
    Forall (fun c => 0 <= c /\ c <= qc 100) levels ->
    exists table,
      OptionB.ci_loop (pd_DataFrame results) levels acc = inr (acc ++ table) /\
      map OptionB.Confidence table = levels /\
      Forall (ci_row_ok (map throughput results)) table.
Proof.
  intros Hne. induction levels as [|c levels IH]; intros acc Hl.
  - exists []. rewrite app_nil_r. repeat split; constructor.
  - inversion Hl as [|? ? [H0 H100] Hl']; subst.
    destruct (ci_row_spec results c Hne H0 H100) as (l & u & El & Eu & Hle & Erow).
    cbn [OptionB.ci_loop]. rewrite Erow. cbn [bind].
    destruct (IH (acc ++ [{| OptionB.Confidence := c;
                             OptionB.Lower_Bound := Some l;
                             OptionB.Upper_Bound := Some u;
                             OptionB.Range := Some (u - l) |}]) Hl')
      as (table & Et & Hc & Hok).
    eexists (_ :: table). rewrite Et, <- app_assoc. cbn [app map].
    split; [reflexivity|]. split; [f_equal; exact Hc|].
    constructor; [|exact Hok].
    unfold ci_row_ok; cbn. repeat split; try assumption.
    exists l, u. repeat split. exact Hle.
Qed.

Lemma confidence_levels_range :
  Forall (fun c => 0 <= c /\ c <= qc 100) OptionB.confidence_levels.
Proof. repeat constructor; vm_compute; discriminate. Qed.

Lemma confidence_intervals_spec (results : list Row) :
  results <> [] ->
  exists table,
    OptionB.confidence_intervals (Some (pd_DataFrame results)) = inr table /\
    map OptionB.Confidence table = OptionB.confidence_levels /\
    Forall (ci_row_ok (map throughput results)) table.
Proof.
  intros Hne.
  destruct (ci_loop_spec results Hne _ [] confidence_levels_range)
    as (table & E & Hc & Hok).
  exists table. repeat split; assumption.
Qed.

Lemma quantile_between (s : list Qc) (q : Qc) :
  s <> [] -> 0 <= q -> q <= 1 ->
  exists v a b,
    Series.quantile s q = inr (Some v) /\
    In a s /\ In b s /\ a <= v /\ v <= b.
Proof.
  intros Hs H0 H1.
  destruct (quantile_nonempty s q Hs H0 H1) as (x0 & Eq).
  pose proof (sort_sorted s) as Hsorted.
  pose proof (sort_length s) as Hlen.
  assert (Hne : QcSort.sort s <> []).
  { intros E. rewrite E in Hlen. destruct s; [congruence | discriminate Hlen]. }
  destruct (interpolate_bounds (QcSort.sort s) x0
              (qcn (List.length s - 1) * q) Hsorted) as (Hidx & Hlo & Hhi).
  - pose proof (qcn_nonneg (List.length s - 1)). qc_to_Q. nra.
  - rewrite Hlen. pose proof (qcn_nonneg (List.length s - 1)). qc_to_Q. nra.
  - exact Hne.
  - eexists. eexists. eexists. split; [exact Eq|].
    split; [|split; [|split; [exact Hlo | exact Hhi]]];
      (eapply Permutation_in;
       [apply Permutation_sym, QcSort.Permuted_sort | apply nth_In; lia]).
Qed.





Definition rows_of (throughputs : list Z) : list Row :=
  map (fun t => {| throughput := qc t; row_product_a := qc 50;
                   row_product_b := qc 80; row_bottleneck := "machining";
                   ht_utilization := qc 100 |}) throughputs.


Lemma ci_nested (s : list Qc) (c1 c2 : Qc) :
  s <> [] -> 0 <= c1 -> c1 <= c2 -> c2 <= qc 100 ->
  exists l1 u1 l2 u2,
    Series.quantile s (lower_level c1) = inr (Some l1) /\
    Series.quantile s (upper_level c1) = inr (Some u1) /\
    Series.quantile s (lower_level c2) = inr (Some l2) /\
    Series.quantile s (upper_level c2) = inr (Some u2) /\
    l2 <= l1 /\ l1 <= u1 /\ u1 <= u2.
Proof.
  intros Hs H0 H12 H100.
  destruct (quantile_mono s (lower_level c2) (lower_level c1) Hs)
    as (l2 & l1 & El2 & El1 & Hl); try (unfold lower_level; qc_lra).
  destruct (quantile_mono s (upper_level c1) (upper_level c2) Hs)
    as (u1 & u2 & Eu1 & Eu2 & Hu); try (unfold upper_level; qc_lra).
  destruct (quantile_mono s (lower_level c1) (upper_level c1) Hs)
    as (l1' & u1' & El1' & Eu1' & Hlu);
    try (unfold lower_level, upper_level; qc_lra).
  rewrite El1 in El1'. rewrite Eu1 in Eu1'.
  injection El1' as <-. injection Eu1' as <-.
  exists l1, u1, l2, u2. repeat split; assumption.
Qed.

(** A skewed Dataset: one trial at 5000, twenty-one at 7800. *)
Definition skewed_results : list Row := rows_of (5000 :: repeat 7800 21)%Z.

(** C2, as stated, fails: on [skewed_results] the mean throughput
    (about 7672.7) is below the 5th percentile (7800). *)
Lemma mean_below_percentile_5 :
  exists km m p5,
    OptionB.key_metrics demand_oracle (default_input 500 20 10 15)
      (Some (pd_DataFrame skewed_results)) = inr (Some km) /\
    OptionB.mean_throughput km = Some m /\
    OptionB.percentile_5 km = Some p5 /\
    m < p5.
Proof.
  eexists. eexists. eexists.
  split; [vm_compute; reflexivity|].
  split; [reflexivity|]. split; [reflexivity|].
  vm_compute. reflexivity.
Qed.

(** C2, amended. On every non-empty Dataset the 5th percentile is at
    most the 95th, and of two rows of the confidence-interval table the
    one with the higher level has the interval that contains the other:
    a lower or equal lower bound and a higher or equal upper bound. *)
Theorem quantile_monotonicity (oracle : Oracle) (inp : OptionB.Input)
  (results : list Row) (base : OptResult) :
  results <> [] -> OptionB.baseline oracle inp = inr base ->
  (exists km p5 p95,
     OptionB.key_metrics oracle inp (Some (pd_DataFrame results))
     = inr (Some km) /\
     OptionB.percentile_5 km = Some p5 /\
     OptionB.percentile_95 km = Some p95 /\ p5 <= p95) /\
  (exists table,
     OptionB.confidence_intervals (Some (pd_DataFrame results)) = inr table /\
     map OptionB.Confidence table = OptionB.confidence_levels /\
     forall r1 r2, In r1 table -> In r2 table ->
       OptionB.Confidence r1 < OptionB.Confidence r2 ->
       exists l1 u1 l2 u2,
         OptionB.Lower_Bound r1 = Some l1 /\ OptionB.Upper_Bound r1 = Some u1 /\
         OptionB.Lower_Bound r2 = Some l2 /\ OptionB.Upper_Bound r2 = Some u2 /\
         l2 <= l1 /\ l1 <= u1 /\ u1 <= u2).
Proof.
  intros Hne Hb. split.
  - destruct (key_metrics_spec oracle inp results base Hne Hb)
      as (m & p5 & p95 & _ & _ & _ & Hle & Ekm).
    eexists. exists p5, p95. split; [exact Ekm|]. repeat split. exact Hle.
  - destruct (confidence_intervals_spec results Hne) as (table & E & Hc & Hok).
    exists table. split; [exact E|]. split; [exact Hc|].
    intros r1 r2 Hr1 Hr2 Hlt.
    pose proof confidence_levels_range as Hrange.
    rewrite <- Hc, Forall_forall in Hrange. rewrite Forall_forall in Hok.
    destruct (Hrange _ (in_map OptionB.Confidence _ _ Hr1)) as [H10 _].
    destruct (Hrange _ (in_map OptionB.Confidence _ _ Hr2)) as [_ H2100].
    destruct (ci_nested (map throughput results) _ _ (map_nonempty _ _ Hne)
                H10 (Qclt_le_weak _ _ Hlt) H2100)
      as (l1 & u1 & l2 & u2 & El1 & Eu1 & El2 & Eu2 & Hl & Hlu & Hu).
    destruct (Hok r1 Hr1) as (Kl1 & Ku1 & _).
    destruct (Hok r2 Hr2) as (Kl2 & Ku2 & _).
    rewrite El1 in Kl1. rewrite Eu1 in Ku1. rewrite El2 in Kl2. rewrite Eu2 in Ku2.
    injection Kl1 as Kl1. injection Ku1 as Ku1.
    injection Kl2 as Kl2. injection Ku2 as Ku2.
    exists l1, u1, l2, u2. repeat split; auto.
Qed.

Lemma quantile_monotonicity_witness :
  exists km p5 p95,
    OptionB.key_metrics demand_oracle (default_input 500 20 10 15)
      (Some (pd_DataFrame skewed_results)) = inr (Some km) /\
    OptionB.percentile_5 km = Some p5 /\
    OptionB.percentile_95 km = Some p95 /\ p5 <= p95.
Proof.
  refine (proj1 (quantile_monotonicity demand_oracle (default_input 500 20 10 15)
                   skewed_results _ _ eq_refl)).
  cbn. discriminate.
Defined.

(** ** Exceedance probabilities *)

Definition count (p : Qc -> bool) (s : list Qc) : nat :=
  List.length (filter p s).

Lemma sum_indicator (p : Qc -> bool) (s : list Qc) :
  sum (map (fun b : bool => if b then 1 else 0) (map p s)) = qcn (count p s).
Proof.
  unfold count. induction s as [|x s IH]; [reflexivity|].
  cbn [map sum fold_right filter].
  fold (sum (map (fun b : bool => if b then 1 else 0) (map p s))).
  rewrite IH. destruct (p x); cbn [List.length].
  - rewrite qcn_S. ring.
  - ring.
Qed.

Lemma mean_bool_count (p : Qc -> bool) (s : list Qc) :
  s <> [] ->
  Series.mean_bool (map p s) = Some (qcn (count p s) / qcn (List.length s)).
Proof.
  intros Hs. unfold Series.mean_bool.
  rewrite mean_nonempty by (do 2 apply map_nonempty; exact Hs).
  rewrite sum_indicator, !length_map. reflexivity.
Qed.

Lemma Qcleb_negb_ltb (t x : Qc) : Qcleb t x = negb (Qcltb x t).
Proof.
  destruct (Qcltb x t) eqn:E; cbn.
  - apply Bool.not_true_iff_false. rewrite Qcleb_le.
    apply Qclt_not_le, Qcltb_lt, E.
  - apply Qcleb_le, Qcltb_ge, E.
Qed.

Lemma count_complement (t : Qc) (s : list Qc) :
  (count (fun x => Qcleb t x) s + count (fun x => Qcltb x t) s)%nat
  = List.length s.
Proof.
  unfold count. induction s as [|x s IH]; [reflexivity|].
  cbn [filter]. rewrite Qcleb_negb_ltb.
  destruct (Qcltb x t); cbn [negb List.length]; lia.
Qed.

Lemma filter_map_length {A B} (f : A -> B) (p : B -> bool) (l : list A) :
  List.length (filter p (map f l))
  = List.length (filter (fun a => p (f a)) l).
Proof.
  induction l as [|a l IH]; [reflexivity|].
  cbn [map filter]. destruct (p (f a)); cbn [List.length]; congruence.
Qed.

Lemma length_pos {A} (l : list A) : l <> [] -> (0 < List.length l)%nat.
Proof. destruct l; [congruence | cbn; lia]. Qed.

(** The target [probability_result] uses. *)
Definition default_target (inp : OptionB.Input) (base : OptResult) : Qc :=
  match OptionB.target inp with
  | None => qc (py_int (total_throughput base))
  | Some t => if Qceqb t 0 then qc (py_int (total_throughput base)) else t
  end.

Lemma probability_result_spec (oracle : Oracle) (inp : OptionB.Input)
  (results : list Row) (base : OptResult) :
  results <> [] -> OptionB.baseline oracle inp = inr base ->
  let s := map throughput results in
  let t := default_target inp base in
  OptionB.probability_result oracle inp (Some (pd_DataFrame results))
  = inr (Some {| OptionB.used_target := t;
                 OptionB.prob_exceed :=
                   Some (qcn (count (fun x => Qcleb t x) s)
                         / qcn (List.length s) * qc 100);
                 OptionB.prob_below :=
                   Some (qcn (count (fun x => Qcltb x t) s)
                         / qcn (List.length s) * qc 100) |}).
Proof.
  intros Hne Hb s t.
  unfold OptionB.probability_result. rewrite Hb. cbn [bind].
  rewrite !getitem_throughput by assumption. cbn [bind].
  fold (default_target inp base). fold t. fold s.
  unfold Series.ge, Series.lt.
  rewrite !mean_bool_count by (apply map_nonempty; exact Hne).
  reflexivity.
Qed.

(** An oracle with fractional results: product A alone, seven hours of
    heat treatment per unit. *)
Definition heat_oracle : Oracle := fun s =>
  ret {| total_throughput := profit_a s * heat_treatment_capacity s / qc 7;
         product_a := heat_treatment_capacity s / qc 7;
         product_b := 0;
         bottleneck := "heat_treatment";
         heat_treatment_utilization := qc 100 |}.

(** C4, as stated, fails: with the default sliders and [heat_oracle] the
    baseline throughput is 14400/7, and with no target set the
    calculator uses 2057. *)
Lemma default_target_is_truncated :
  exists b pr,
    OptionB.baseline heat_oracle (default_input 500 0 0 0) = inr b /\
    OptionB.probability_result heat_oracle (default_input 500 0 0 0)
      (Some (pd_DataFrame (repeat (OptionB.row_of b) 3))) = inr (Some pr) /\
    OptionB.used_target pr = qc 2057 /\
    OptionB.used_target pr <> total_throughput b.
Proof.
  eexists. eexists.
  split; [reflexivity|]. split; [vm_compute; reflexivity|].
  split; [apply Qc_is_canon; vm_compute; reflexivity|].
  intros H. apply (f_equal this) in H. vm_compute in H. discriminate H.
Qed.

(** C4, amended. On a non-empty Dataset of [n] trials [prob_exceed] is
    the percentage [k / n * 100] of the [k] trials whose throughput is at
    least the target, and [prob_below] the percentage [m / n * 100] of
    the [m] trials whose throughput is below it.  The two are
    complements on the counts: every trial is counted by exactly one of
    them, so [k + m = n].  When no target is set, or the target is 0,
    the target used is the baseline throughput truncated to an integer;
    any other target is used as it is. *)
Theorem probability_complement (oracle : Oracle) (inp : OptionB.Input)
  (results : list Row) (base : OptResult) :
  results <> [] -> OptionB.baseline oracle inp = inr base ->
  exists pr e b,
    OptionB.probability_result oracle inp (Some (pd_DataFrame results))
    = inr (Some pr) /\
    OptionB.prob_exceed pr = Some e /\ OptionB.prob_below pr = Some b /\
    let at_least r := Qcleb (OptionB.used_target pr) (throughput r) in
    let below r := Qcltb (throughput r) (OptionB.used_target pr) in
    e = qcn (List.length (filter at_least results))
        / qcn (List.length results) * qc 100 /\
    b = qcn (List.length (filter below results))
        / qcn (List.length results) * qc 100 /\
    (forall r, at_least r = negb (below r)) /\
    (List.length (filter at_least results)
     + List.length (filter below results))%nat = List.length results /\
    (OptionB.target inp = None \/ OptionB.target inp = Some 0 ->
     OptionB.used_target pr = qc (py_int (total_throughput base))) /\
    (forall t, OptionB.target inp = Some t -> t <> 0 ->
               OptionB.used_target pr = t).
Proof.
  intros Hne Hb.
  pose proof (probability_result_spec oracle inp results base Hne Hb) as E.
  cbv zeta in E.
  eexists. eexists. eexists. split; [exact E|].
  cbn [OptionB.used_target OptionB.prob_exceed OptionB.prob_below].
  split; [reflexivity|]. split; [reflexivity|]. cbv zeta.
  split; [|split; [|split; [|split; [|split]]]].
  - unfold count. rewrite length_map, filter_map_length. reflexivity.
  - unfold count. rewrite length_map, filter_map_length. reflexivity.
  - intros r. apply Qcleb_negb_ltb.
  - pose proof (count_complement (default_target inp base)
                  (map throughput results)) as Hc.
    unfold count in Hc. rewrite !filter_map_length, length_map in Hc.
    exact Hc.
  - unfold default_target. intros [-> | ->]; [reflexivity|].
    rewrite Qceqb_refl. reflexivity.
  - unfold default_target. intros t -> Ht.
    destruct (Qceqb t 0) eqn:E0; [|reflexivity].
    apply Qceqb_eq in E0. contradiction.
Qed.

Lemma probability_complement_witness :
  exists pr,
    OptionB.probability_result demand_oracle (default_input 500 20 10 15)
      (Some (pd_DataFrame skewed_results)) = inr (Some pr) /\
    (List.length (filter (fun r => Qcleb (OptionB.used_target pr) (throughput r))
                    skewed_results)
     + List.length (filter (fun r => Qcltb (throughput r) (OptionB.used_target pr))
                      skewed_results))%nat
    = List.length skewed_results.
Proof.
  destruct (probability_complement demand_oracle (default_input 500 20 10 15)
              skewed_results _ ltac:(cbn; discriminate) eq_refl)
    as (pr & e & b & E & _ & _ & _ & _ & _ & Hsum & _).
  exists pr. split; assumption.
Defined.

(** ** Key insights of the simulation *)

Lemma insert_by_count_nonempty (e : string * nat) (l : list (string * nat)) :
  Series.insert_by_count e l <> [].
Proof.
  destruct l as [|e' l]; cbn [Series.insert_by_count]; [congruence|].
  destruct (snd e' <? snd e)%nat; congruence.
Qed.

Lemma value_counts_nonempty (s : list string) :
  s <> [] -> Series.value_counts s <> [].
Proof.
  intros Hs. unfold Series.value_counts.
  destruct s as [|x s]; [congruence|]. cbn [Series.distinct map fold_left].
  generalize (map (fun v => (v, count_occ string_dec (x :: s) v))
                (filter (fun y => negb (x =? y)%string) (Series.distinct s))).
  generalize (x, count_occ string_dec (x :: s) x).
  intros e l.
  assert (H : forall l acc, acc <> [] ->
            fold_left (fun acc e => Series.insert_by_count e acc) l acc <> []).
  { clear. induction l as [|e l IH]; intros acc Hacc; [exact Hacc|].
    cbn. apply IH, insert_by_count_nonempty. }
  apply H, insert_by_count_nonempty.
Qed.

Lemma insights_spec (oracle : Oracle) (inp : OptionB.Input)
  (results : list Row) (base : OptResult) :
  results <> [] -> OptionB.baseline oracle inp = inr base ->
  let s := map throughput results in
  let tb := total_throughput base in
  exists m p5 p95 b c rest,
    Series.mean s = Some m /\
    Series.quantile s OptionB.q005 = inr (Some p5) /\
    Series.quantile s OptionB.q095 = inr (Some p95) /\
    Series.value_counts (map row_bottleneck results) = (b, c) :: rest /\
    OptionB.insights oracle inp (Some (pd_DataFrame results))
    = inr (Some {| OptionB.mean_vs_baseline := Some (m - tb);
                   OptionB.prob_above_baseline :=
                     Some (qcn (count (fun x => Qcltb tb x) s)
                           / qcn (List.length s) * qc 100);
                   OptionB.worst_case := Some p5;
                   OptionB.worst_case_pct := OptionB.pct_vs (Some p5) tb;
                   OptionB.best_case := Some p95;
                   OptionB.best_case_pct := OptionB.pct_vs (Some p95) tb;
                   OptionB.most_common_bottleneck := b;
                   OptionB.bottleneck_pct :=
                     fmul (fdiv (Some (qcn c))
                                (Some (qcn (List.length results))))
                          (Some (qc 100)) |}).
Proof.
  intros Hne Hb s tb.
  destruct (key_metrics_spec oracle inp results base Hne Hb)
    as (m & p5 & p95 & Em & E5 & E95 & _ & _).
  destruct (Series.value_counts (map row_bottleneck results))
    as [|[b c] rest] eqn:Evc.
  { exfalso. revert Evc. apply value_counts_nonempty, map_nonempty, Hne. }
  exists m, p5, p95, b, c, rest. repeat split; try assumption.
  unfold OptionB.insights. rewrite Hb. cbn [bind].
  rewrite !getitem_throughput, getitem_bottleneck by assumption. cbn [bind].
  rewrite E5, E95, Em. cbn [bind]. rewrite Evc.
  unfold Series.gt. rewrite mean_bool_count by (apply map_nonempty; exact Hne).
  reflexivity.
Qed.

Lemma py_int_floor (x : Qc) : 0 <= x -> py_int x = Qfloor x.
Proof.
  intros Hx. unfold py_int, Qfloor. destruct x as [[n d] Hc]. cbn in *.
  apply Z.quot_div_nonneg; [|lia].
  unfold Qcle, Qle in Hx. cbn in Hx. lia.
Qed.

Lemma py_int_le (x : Qc) : 0 <= x -> qc (py_int x) <= x.
Proof. intros Hx. rewrite py_int_floor by exact Hx. apply floor_bounds. Qed.

Lemma count_all (p : Qc -> bool) (s : list Qc) :
  (forall x, In x s -> p x = true) -> count p s = List.length s.
Proof.
  unfold count. induction s as [|x s IH]; intros H; [reflexivity|].
  cbn [filter]. rewrite (H x) by (cbn; auto). cbn [List.length].
  f_equal. apply IH. intros; apply H; cbn; auto.
Qed.

Lemma count_none (p : Qc -> bool) (s : list Qc) :
  (forall x, In x s -> p x = false) -> count p s = 0%nat.
Proof.
  unfold count. induction s as [|x s IH]; intros H; [reflexivity|].
  cbn [filter]. rewrite (H x) by (cbn; auto).
  apply IH. intros; apply H; cbn; auto.
Qed.

Lemma frac_all (n : nat) : (0 < n)%nat -> qcn n / qcn n * qc 100 = qc 100.
Proof. intros Hn. field. apply qcn_neq0, Hn. Qed.

Lemma frac_none (n : nat) : qcn 0 / qcn n * qc 100 = 0.
Proof. change (qcn 0) with 0. unfold Qcdiv. ring. Qed.

(** C10. The calculator counts the trials with throughput [>=] the
    target, the insights panel those with throughput strictly [>] the
    baseline.  So on a non-empty Dataset whose every trial has the
    baseline throughput (a non-negative amount), with no target set, the
    calculator reports 100 and the insights panel reports 0. *)
Theorem exceedance_boundaries (oracle : Oracle) (inp : OptionB.Input)
  (results : list Row) (base : OptResult) :
  results <> [] -> OptionB.baseline oracle inp = inr base ->
  (exists pr ins,
     OptionB.probability_result oracle inp (Some (pd_DataFrame results))
     = inr (Some pr) /\
     OptionB.insights oracle inp (Some (pd_DataFrame results))
     = inr (Some ins) /\
     OptionB.prob_exceed pr
     = Some (qcn (count (fun x => Qcleb (OptionB.used_target pr) x)
                    (map throughput results))
             / qcn (List.length results) * qc 100) /\
     OptionB.prob_above_baseline ins
     = Some (qcn (count (fun x => Qcltb (total_throughput base) x)
                    (map throughput results))
             / qcn (List.length results) * qc 100) /\
     ((forall r, In r results -> throughput r = total_throughput base) ->
      OptionB.target inp = None -> 0 <= total_throughput base ->
      OptionB.prob_exceed pr = Some (qc 100) /\
      OptionB.prob_above_baseline ins = Some 0)).
Proof.
  intros Hne Hb.
  pose proof (probability_result_spec oracle inp results base Hne Hb) as Ep.
  destruct (insights_spec oracle inp results base Hne Hb)
    as (m & p5 & p95 & b & c & rest & _ & _ & _ & _ & Ei).
  cbv zeta in Ep, Ei.
  eexists. eexists. split; [exact Ep|]. split; [exact Ei|].
  cbn [OptionB.used_target OptionB.prob_exceed OptionB.prob_above_baseline].
  rewrite !length_map.
  split; [reflexivity|]. split; [reflexivity|].
  intros Hall Ht Hnn.
  assert (Hin : forall x, In x (map throughput results) ->
                          x = total_throughput base).
  { intros x Hx. apply in_map_iff in Hx as (r & <- & Hr). apply Hall, Hr. }
  split; f_equal.
  - rewrite count_all, length_map.
    + apply frac_all, length_pos, Hne.
    + intros x Hx. rewrite (Hin x Hx). apply Qcleb_le.
      unfold default_target. rewrite Ht. apply py_int_le, Hnn.
  - rewrite count_none.
    + apply frac_none.
    + intros x Hx. rewrite (Hin x Hx). apply Qcltb_ge, Qcle_refl.
Qed.

(** The baseline of the default sliders under [heat_oracle]. *)
Definition heat_base : OptResult :=
  {| total_throughput := qc 90 * qc 160 / qc 7;
     product_a := qc 160 / qc 7;
     product_b := 0;
     bottleneck := "heat_treatment";
     heat_treatment_utilization := qc 100 |}.

Lemma exceedance_boundaries_witness :
  exists pr ins,
    OptionB.probability_result heat_oracle (default_input 500 0 0 0)
      (Some (pd_DataFrame (repeat (OptionB.row_of heat_base) 3)))
    = inr (Some pr) /\
    OptionB.insights heat_oracle (default_input 500 0 0 0)
      (Some (pd_DataFrame (repeat (OptionB.row_of heat_base) 3)))
    = inr (Some ins) /\
    OptionB.prob_exceed pr = Some (qc 100) /\
    OptionB.prob_above_baseline ins = Some 0.
Proof.
  destruct (exceedance_boundaries heat_oracle (default_input 500 0 0 0)
              (repeat (OptionB.row_of heat_base) 3) heat_base
              ltac:(cbn; discriminate) eq_refl)
    as (pr & ins & Ep & Ei & _ & _ & Hcons).
  exists pr, ins. split; [exact Ep|]. split; [exact Ei|].
  apply Hcons.
  - intros r Hr. apply repeat_spec in Hr. subst r. reflexivity.
  - reflexivity.
  - vm_compute. discriminate.
Defined.

(** ** A Dataset with zero trials *)

Lemma getitem_empty {A} (col : string) (proj : Row -> A) :
  getitem (pd_DataFrame []) col proj = inl (KeyError col).
Proof. reflexivity. Qed.

(** C8. A run of zero trials stores [pd.DataFrame([])], a frame without
    columns, and on it every aggregation raises: the confidence
    intervals raise [KeyError('throughput')], and so do the key metrics
    (mean, standard deviation, percentiles), the probability calculator
    and the insights (bottleneck frequency) as soon as the baseline has
    been evaluated; none returns a value. *)
Theorem empty_dataset_raises (oracle : Oracle) (inp : OptionB.Input)
  (g : OptionB.Rng) :
  OptionB.n_sims inp = 0%nat ->
  OptionB.run_simulation oracle inp g = inr (pd_DataFrame [], g) /\
  OptionB.confidence_intervals (Some (pd_DataFrame []))
  = inl (KeyError "throughput") /\
  (exists e, OptionB.key_metrics oracle inp (Some (pd_DataFrame [])) = inl e) /\
  (exists e, OptionB.probability_result oracle inp (Some (pd_DataFrame []))
             = inl e) /\
  (exists e, OptionB.insights oracle inp (Some (pd_DataFrame [])) = inl e) /\
  (forall base, OptionB.baseline oracle inp = inr base ->
     OptionB.key_metrics oracle inp (Some (pd_DataFrame []))
     = inl (KeyError "throughput") /\
     OptionB.probability_result oracle inp (Some (pd_DataFrame []))
     = inl (KeyError "throughput") /\
     OptionB.insights oracle inp (Some (pd_DataFrame []))
     = inl (KeyError "throughput")).
Proof.
  intros Hn. split.
  { unfold OptionB.run_simulation. rewrite Hn. reflexivity. }
  split; [reflexivity|].
  unfold OptionB.key_metrics, OptionB.probability_result, OptionB.insights.
  destruct (OptionB.baseline oracle inp) as [e | b0]; cbn [bind].
  - split; [eauto|]. split; [eauto|]. split; [eauto|].
    intros b1 Hb. discriminate Hb.
  - rewrite !getitem_empty. cbn [bind].
    split; [eauto|]. split; [eauto|]. split; [eauto|].
    intros b1 _. repeat split; reflexivity.
Qed.

Lemma empty_dataset_raises_witness :
  OptionB.run_simulation demand_oracle (default_input 0 20 10 15) (constant_rng 3)
  = inr (pd_DataFrame [], constant_rng 3) /\
  OptionB.key_metrics demand_oracle (default_input 0 20 10 15)
    (Some (pd_DataFrame [])) = inl (KeyError "throughput").
Proof.
  destruct (empty_dataset_raises demand_oracle (default_input 0 20 10 15)
              (constant_rng 3) eq_refl) as (Hrun & _ & _ & _ & _ & Hks).
  split; [exact Hrun|]. exact (proj1 (Hks _ eq_refl)).
Defined.

(** ** The scenario comparator *)

Lemma py_max3_cases (a b c : Qc) :
  py_max3 a b c = a \/ py_max3 a b c = b \/ py_max3 a b c = c.
Proof.
  unfold py_max3.
  destruct (py_max_cases (py_max a b) c) as [-> | ->]; [|auto].
  destruct (py_max_cases a b) as [-> | ->]; auto.
Qed.

Lemma py_max3_upper (a b c : Qc) :
  a <= py_max3 a b c /\ b <= py_max3 a b c /\ c <= py_max3 a b c.
Proof.
  unfold py_max3. repeat split.
  - eapply Qcle_trans; [apply py_max_ge_l|]. apply py_max_ge_l.
  - eapply Qcle_trans; [apply (py_max_ge_r a b)|]. apply py_max_ge_l.
  - apply py_max_ge_r.
Qed.

Lemma Qceqb_neq (x y : Qc) : Qceqb x y = false <-> x <> y.
Proof.
  rewrite <- Bool.not_true_iff_false, Qceqb_eq. reflexivity.
Qed.

(** [throughputs.index(max(throughputs))] on the three throughputs: the
    first position that holds the maximum. *)
Lemma best_idx_spec (a b c : Qc) :
  exists i,
    py_index (py_max_list a [b; c]) [a; b; c] = inr i /\
    ((i = 0%nat /\ a = py_max3 a b c) \/
     (i = 1%nat /\ a <> py_max3 a b c /\ b = py_max3 a b c) \/
     (i = 2%nat /\ a <> py_max3 a b c /\ b <> py_max3 a b c
      /\ c = py_max3 a b c)).
Proof.
  change (py_max_list a [b; c]) with (py_max3 a b c).
  cbn [py_index].
  destruct (Qceqb a (py_max3 a b c)) eqn:Ea.
  { exists 0%nat. split; [reflexivity|]. left. split; [reflexivity|].
    apply Qceqb_eq, Ea. }
  destruct (Qceqb b (py_max3 a b c)) eqn:Eb.
  { exists 1%nat. split; [reflexivity|]. right; left.
    apply Qceqb_neq in Ea. apply Qceqb_eq in Eb. auto. }
  destruct (Qceqb c (py_max3 a b c)) eqn:Ec.
  { exists 2%nat. split; [reflexivity|]. right; right.
    apply Qceqb_neq in Ea, Eb. apply Qceqb_eq in Ec. auto. }
  exfalso. apply Qceqb_neq in Ea, Eb, Ec.
  destruct (py_max3_cases a b c) as [H | [H | H]]; congruence.
Qed.

Lemma nodup_all_equal (l : list string) (b : string) :
  NoDup l -> (forall x, In x l <-> x = b) -> l = [b].
Proof.
  intros Hnd Hin. destruct l as [|x l].
  - exfalso. apply (proj2 (Hin b) eq_refl).
  - assert (x = b) by (apply Hin; cbn; auto). subst x.
    destruct l as [|y l]; [reflexivity|]. exfalso.
    assert (y = b) by (apply Hin; cbn; auto). subst y.
    inversion Hnd as [|? ? Hni _]. apply Hni. cbn; auto.
Qed.

Lemma nodup_two_distinct (l : list string) (x y : string) :
  In x l -> In y l -> x <> y -> (1 < List.length l)%nat.
Proof.
  intros Hx Hy Hxy.
  destruct l as [|a [|b l]]; cbn in *; [contradiction | | lia].
  destruct Hx as [<- | []], Hy as [<- | []]. congruence.
Qed.

(** The bottleneck box, from what [list(set(bottlenecks))] returns. *)
Definition bottleneck_box_of (unique_bottlenecks : list string)
  : res OptionA.BottleneckBox :=
  if (1 <? List.length unique_bottlenecks)%nat
  then ret (OptionA.Bottleneck_Shift unique_bottlenecks)
  else match unique_bottlenecks with
       | b :: _ => ret (OptionA.Consistent_Bottleneck b)
       | [] => raise IndexError
       end.

Definition bottlenecks_of (results : OptionA.Results) : list string :=
  [bottleneck (OptionA.result (OptionA.s1 results));
   bottleneck (OptionA.result (OptionA.s2 results));
   bottleneck (OptionA.result (OptionA.s3 results))].

Lemma insights_returns (list_set : list string -> list string)
  (results : OptionA.Results) :
  OptionA.set_iteration list_set ->
  let t1 := OptionA.tp (OptionA.s1 results) in
  let t2 := OptionA.tp (OptionA.s2 results) in
  let t3 := OptionA.tp (OptionA.s3 results) in
  exists best_idx best box,
    py_index (py_max_list t1 [t2; t3]) [t1; t2; t3] = inr best_idx /\
    nth_error [OptionA.s1 results; OptionA.s2 results; OptionA.s3 results]
              best_idx = Some best /\
    OptionA.tp best = py_max3 t1 t2 t3 /\
    bottleneck_box_of (list_set (bottlenecks_of results)) = inr box /\
    OptionA.insights list_set results
    = inr {| OptionA.best_name := OptionA.name best;
             OptionA.best_throughput := OptionA.tp best;
             OptionA.improvement_box :=
               if negb (best_idx =? 0)%nat
               then Some (OptionA.tp best - t1,
                          if Qcltb 0 t1
                          then (OptionA.tp best - t1) / t1 * qc 100
                          else 0)
               else None;
             OptionA.bottleneck_box := box |}.
Proof.
  intros Hset t1 t2 t3.
  destruct (best_idx_spec t1 t2 t3) as (i & Ei & Hi).
  assert (Hbest : exists best,
             nth_error [OptionA.s1 results; OptionA.s2 results; OptionA.s3 results] i
             = Some best /\ OptionA.tp best = py_max3 t1 t2 t3).
  { destruct Hi as [[-> H] | [[-> (_ & H)] | [-> (_ & _ & H)]]];
      eexists; (split; [reflexivity | exact H]). }
  destruct Hbest as (best & Enth & Htp).
  assert (Hbox : exists box,
             bottleneck_box_of (list_set (bottlenecks_of results)) = inr box).
  { unfold bottleneck_box_of.
    destruct (1 <? _)%nat; [eexists; reflexivity|].
    destruct (list_set (bottlenecks_of results)) as [|b l] eqn:El.
    - exfalso. destruct (Hset (bottlenecks_of results)) as [_ Hin].
      rewrite El in Hin. apply (Hin (bottleneck (OptionA.result (OptionA.s1 results)))).
      cbn. auto.
    - eexists; reflexivity. }
  destruct Hbox as (box & Ebox).
  exists i, best, box. repeat split; try assumption.
  unfold OptionA.insights. fold t1 t2 t3. rewrite Ei. cbn [bind].
  rewrite Enth. cbn [bind ret].
  fold (bottlenecks_of results).
  unfold bottleneck_box_of in Ebox. rewrite Ebox. reflexivity.
Qed.

Definition example_results (t1 t2 t3 : Z) (b1 b2 b3 : string) : OptionA.Results :=
  let mk (n : string) (t : Z) (b : string) :=
    {| OptionA.name := n;
       OptionA.result := {| total_throughput := qc t;
                            product_a := qc 50; product_b := qc 80;
                            bottleneck := b;
                            heat_treatment_utilization := qc 100 |} |} in
  {| OptionA.s1 := mk "Baseline"%string t1 b1;
     OptionA.s2 := mk "Elevate Bottleneck"%string t2 b2;
     OptionA.s3 := mk "Premium Product A"%string t3 b3 |}.

(** Two iteration orders a Python set may have: first-seen order, and
    the reverse of last-seen order. *)
Definition first_seen_set (l : list string) : list string := Series.distinct l.
Definition reversed_set (l : list string) : list string :=
  rev (nodup string_dec l).

Lemma reversed_set_iteration : OptionA.set_iteration reversed_set.
Proof.
  intros l. unfold reversed_set. split.
  - apply NoDup_rev, NoDup_nodup.
  - intros x. rewrite <- in_rev. apply nodup_In.
Qed.

Lemma distinct_In (l : list string) (x : string) :
  In x (Series.distinct l) <-> In x l.
Proof.
  induction l as [|a l IH]; [reflexivity|].
  cbn [Series.distinct In]. rewrite filter_In, IH.
  destruct (String.eqb_spec a x) as [-> | Hne]; cbn; [tauto|].
  split; [tauto|]. intros [H | H]; [congruence|]. right. auto.
Qed.

Lemma distinct_NoDup (l : list string) : NoDup (Series.distinct l).
Proof.
  induction l as [|a l IH]; [constructor|].
  cbn [Series.distinct]. constructor.
  - rewrite filter_In. intros [_ H]. rewrite String.eqb_refl in H. discriminate H.
  - apply NoDup_filter, IH.
Qed.

Lemma first_seen_set_iteration : OptionA.set_iteration first_seen_set.
Proof.
  intros l. split; [apply distinct_NoDup | intros x; apply distinct_In].
Qed.

(** C5, as stated, fails: under an iteration order Python allows, the
    bottlenecks machining, machining, assembly are listed as assembly,
    machining, which is not their first-seen order. *)
Lemma shift_not_in_first_seen_order :
  OptionA.set_iteration reversed_set /\
  exists ins,
    OptionA.insights reversed_set
      (example_results 1000 1200 1200 "machining" "machining" "assembly")
    = inr ins /\
    OptionA.bottleneck_box ins
    = OptionA.Bottleneck_Shift ["assembly"; "machining"]%string /\
    OptionA.bottleneck_box ins
    <> OptionA.Bottleneck_Shift
         (Series.distinct ["machining"; "machining"; "assembly"]%string).
Proof.
  split; [apply reversed_set_iteration|].
  eexists. split; [vm_compute; reflexivity|].
  split; [reflexivity|]. cbn. intros H. discriminate H.
Qed.

Lemma two_element_orders (l : list string) (a b : string) :
  NoDup l -> (forall x, In x l <-> x = a \/ x = b) -> a <> b ->
  l = [a; b] \/ l = [b; a].
Proof.
  intros Hnd Hin Hab.
  assert (Ha : In a l) by (apply Hin; auto).
  assert (Hb : In b l) by (apply Hin; auto).
  destruct l as [|x [|y [|z l]]].
  - destruct Ha.
  - cbn in Ha, Hb. destruct Ha as [<- | []], Hb as [<- | []]. congruence.
  - assert (Hx : x = a \/ x = b) by (apply Hin; cbn; auto).
    assert (Hy : y = a \/ y = b) by (apply Hin; cbn; auto).
    inversion Hnd as [|? ? Hni _]; subst. cbn in Hni.
    destruct Hx as [-> | ->], Hy as [-> | ->]; auto; exfalso; apply Hni; auto.
  - exfalso.
    assert (Hx : x = a \/ x = b) by (apply Hin; cbn; auto).
    assert (Hy : y = a \/ y = b) by (apply Hin; cbn; auto).
    assert (Hz : z = a \/ z = b) by (apply Hin; cbn; auto).
    inversion Hnd as [|? ? Hni Hnd']; subst.
    inversion Hnd' as [|? ? Hni' _]; subst. cbn in Hni, Hni'.
    destruct Hx as [-> | ->], Hy as [-> | ->], Hz as [-> | ->];
      first [apply Hni; auto; fail | apply Hni'; auto].
Qed.

(** C5, amended. For three evaluated scenarios the comparator reports
    "consistent bottleneck" with the single value when the three
    bottlenecks are equal, and otherwise "bottleneck shift" listing each
    distinct observed bottleneck once, in the order the set iterates
    (which need not be first-seen order); machining, machining, assembly
    yield a shift listing machining and assembly in one of the two
    orders. *)
Theorem bottleneck_report (list_set : list string -> list string)
  (results : OptionA.Results) :
  OptionA.set_iteration list_set ->
  let b1 := bottleneck (OptionA.result (OptionA.s1 results)) in
  let b2 := bottleneck (OptionA.result (OptionA.s2 results)) in
  let b3 := bottleneck (OptionA.result (OptionA.s3 results)) in
  exists ins,
    OptionA.insights list_set results = inr ins /\
    (b1 = b2 -> b2 = b3 ->
     OptionA.bottleneck_box ins = OptionA.Consistent_Bottleneck b1) /\
    (~ (b1 = b2 /\ b2 = b3) ->
     exists listed,
       OptionA.bottleneck_box ins = OptionA.Bottleneck_Shift listed /\
       NoDup listed /\ (forall x, In x listed <-> In x [b1; b2; b3])) /\
    (b1 = "machining"%string -> b2 = "machining"%string ->
     b3 = "assembly"%string ->
     OptionA.bottleneck_box ins
     = OptionA.Bottleneck_Shift ["machining"; "assembly"]%string \/
     OptionA.bottleneck_box ins
     = OptionA.Bottleneck_Shift ["assembly"; "machining"]%string).
Proof.
  intros Hset b1 b2 b3.
  destruct (insights_returns list_set results Hset)
    as (i & best & box & _ & _ & _ & Ebox & Eins).
  eexists. split; [exact Eins|]. cbn [OptionA.bottleneck_box].
  destruct (Hset (bottlenecks_of results)) as [Hnd Hin].
  unfold bottlenecks_of in *. fold b1 b2 b3 in Hnd, Hin, Ebox.
  unfold bottleneck_box_of in Ebox.
  assert (Hshift : ~ (b1 = b2 /\ b2 = b3) ->
            box = OptionA.Bottleneck_Shift (list_set [b1; b2; b3])).
  { intros Hneq.
    assert (Hlen : (1 < List.length (list_set [b1; b2; b3]))%nat).
    { destruct (string_dec b1 b2) as [E12 | N12].
      - destruct (string_dec b2 b3) as [E23 | N23]; [tauto|].
        apply (nodup_two_distinct _ b2 b3); [| |exact N23]; apply Hin; cbn; auto.
      - apply (nodup_two_distinct _ b1 b2); [| |exact N12]; apply Hin; cbn; auto. }
    apply Nat.ltb_lt in Hlen. rewrite Hlen in Ebox.
    injection Ebox as <-. reflexivity. }
  split; [|split].
  - intros E12 E23.
    assert (El : list_set [b1; b2; b3] = [b1]).
    { apply nodup_all_equal; [exact Hnd|]. intros x. rewrite Hin.
      cbn. rewrite <- E23, <- E12. intuition. }
    rewrite El in Ebox. cbn in Ebox. injection Ebox as <-. reflexivity.
  - intros Hneq. exists (list_set [b1; b2; b3]).
    split; [apply Hshift, Hneq|]. split; assumption.
  - intros E1 E2 E3.
    rewrite Hshift by (rewrite E2, E3; intros [_ H]; discriminate H).
    destruct (two_element_orders (list_set [b1; b2; b3])
                "machining" "assembly" Hnd) as [-> | ->]; auto.
    + intros x. rewrite Hin, E1, E2, E3. cbn. intuition.
    + discriminate.
Qed.

Lemma bottleneck_report_witness :
  exists ins,
    OptionA.insights first_seen_set
      (example_results 1000 1200 1200 "machining" "machining" "assembly")
    = inr ins /\
    (OptionA.bottleneck_box ins
     = OptionA.Bottleneck_Shift ["machining"; "assembly"]%string \/
     OptionA.bottleneck_box ins
     = OptionA.Bottleneck_Shift ["assembly"; "machining"]%string).
Proof.
  destruct (bottleneck_report first_seen_set
              (example_results 1000 1200 1200 "machining" "machining" "assembly")
              first_seen_set_iteration)
    as (ins & E & _ & _ & H).
  exists ins. split; [exact E|]. apply H; reflexivity.
Defined.

(** C6. Every scenario whose throughput equals the maximum has its card
    marked best; with throughputs 1000, 1200, 1200 the cards of
    scenarios 2 and 3 are both marked best and that of scenario 1 is
    not, and the insights report an improvement of 200, that is 20%,
    over the baseline scenario 1. *)
Theorem tie_break (list_set : list string -> list string)
  (results : OptionA.Results) :
  OptionA.set_iteration list_set ->
  OptionA.tp (OptionA.s1 results) = qc 1000 ->
  OptionA.tp (OptionA.s2 results) = qc 1200 ->
  OptionA.tp (OptionA.s3 results) = qc 1200 ->
  (forall r : OptionA.Results,
     let best := py_max3 (OptionA.tp (OptionA.s1 r)) (OptionA.tp (OptionA.s2 r))
                         (OptionA.tp (OptionA.s3 r)) in
     (OptionA.card_best (OptionA.scenario1_card r) = true
      <-> OptionA.tp (OptionA.s1 r) = best) /\
     (OptionA.card_best (OptionA.scenario2_card r) = true
      <-> OptionA.tp (OptionA.s2 r) = best) /\
     (OptionA.card_best (OptionA.scenario3_card r) = true
      <-> OptionA.tp (OptionA.s3 r) = best) /\
     OptionA.tp (OptionA.s1 r) <= best /\ OptionA.tp (OptionA.s2 r) <= best /\
     OptionA.tp (OptionA.s3 r) <= best) /\
  OptionA.card_best (OptionA.scenario1_card results) = false /\
  OptionA.card_best (OptionA.scenario2_card results) = true /\
  OptionA.card_best (OptionA.scenario3_card results) = true /\
  exists ins,
    OptionA.insights list_set results = inr ins /\
    OptionA.best_throughput ins = qc 1200 /\
    OptionA.improvement_box ins = Some (qc 200, qc 20).
Proof.
  intros Hset H1 H2 H3. split.
  { intros r best. unfold OptionA.scenario1_card, OptionA.scenario2_card,
      OptionA.scenario3_card, OptionA.create_scenario_card_html.
    cbn [OptionA.card_best]. fold best.
    repeat split; try apply Qceqb_eq; apply py_max3_upper. }
  unfold OptionA.scenario1_card, OptionA.scenario2_card,
    OptionA.scenario3_card, OptionA.create_scenario_card_html.
  cbn [OptionA.card_best]. rewrite H1, H2, H3.
  split; [vm_compute; reflexivity|].
  split; [vm_compute; reflexivity|].
  split; [vm_compute; reflexivity|].
  destruct (insights_returns list_set results Hset)
    as (i & best & box & Ei & Enth & Htp & _ & Eins).
  cbv zeta in Ei, Htp, Eins.
  rewrite H1, H2, H3 in Ei, Htp. rewrite H1 in Eins.
  assert (Hi : i = 1%nat).
  { vm_compute in Ei. injection Ei as <-. reflexivity. }
  subst i.
  assert (Hmax : py_max3 (qc 1000) (qc 1200) (qc 1200) = qc 1200).
  { apply Qc_is_canon. vm_compute. reflexivity. }
  rewrite Hmax in Htp. rewrite Htp in Eins.
  eexists. split; [exact Eins|].
  cbn [OptionA.best_throughput OptionA.improvement_box Nat.eqb negb].
  split; [reflexivity|].
  replace (Qcltb 0 (qc 1000)) with true by (vm_compute; reflexivity).
  f_equal. f_equal; apply Qc_is_canon; vm_compute; reflexivity.
Qed.

Lemma tie_break_witness :
  OptionA.card_best (OptionA.scenario2_card
    (example_results 1000 1200 1200 "machining" "machining" "assembly")) = true /\
  OptionA.card_best (OptionA.scenario3_card
    (example_results 1000 1200 1200 "machining" "machining" "assembly")) = true /\
  exists ins,
    OptionA.insights first_seen_set
      (example_results 1000 1200 1200 "machining" "machining" "assembly")
    = inr ins /\
    OptionA.improvement_box ins = Some (qc 200, qc 20).
Proof.
  destruct (tie_break first_seen_set
              (example_results 1000 1200 1200 "machining" "machining" "assembly")
              first_seen_set_iteration eq_refl eq_refl eq_refl)
    as (_ & _ & Hb2 & Hb3 & ins & E & _ & Himp).
  split; [exact Hb2|]. split; [exact Hb3|].
  exists ins. split; assumption.
Defined.

(** ** Deltas against the baseline *)

(** The numbers the key metrics and the insights panel display (the
    standard deviation, a square root, apart). *)
Definition displayed_numbers (km : OptionB.KeyMetrics) (ins : OptionB.Insights)
  : list float :=
  [OptionB.mean_throughput km; OptionB.percentile_5 km; OptionB.percentile_95 km;
   OptionB.delta_mean km; OptionB.delta_5 km; OptionB.delta_95 km;
   OptionB.mean_vs_baseline ins; OptionB.prob_above_baseline ins;
   OptionB.worst_case ins; OptionB.worst_case_pct ins;
   OptionB.best_case ins; OptionB.best_case_pct ins;
   OptionB.bottleneck_pct ins].

(** The sliders with both demands at 0 (their minimum). *)
Definition zero_demand_input : OptionB.Input :=
  {| OptionB.n_sims := 500;
     OptionB.base_heat := qc 160; OptionB.base_mach := qc 200;
     OptionB.base_assy := qc 180;
     OptionB.base_dema := 0; OptionB.base_demb := 0;
     OptionB.base_profa := qc 90; OptionB.base_profb := qc 60;
     OptionB.demand_unc := qc 20; OptionB.capacity_unc := qc 10;
     OptionB.price_unc := qc 15;
     OptionB.target := None |}.

Ltac differ H :=
  apply (f_equal (option_map this)) in H; vm_compute in H; congruence.

(** C7, as stated, fails twice.  The delta of the mean is displayed as
    an amount only: on [skewed_results] with baseline 9300 its
    percentage (about -17.5, negative, so not the standard deviation
    either) is none of the displayed numbers.  And the percentages of
    the insights panel are not guarded: with both demands at 0 the
    baseline throughput is 0 and neither percentage is a finite
    number. *)
Lemma mean_percentage_absent_and_unguarded :
  (exists km ins m,
     OptionB.key_metrics demand_oracle (default_input 500 20 10 15)
       (Some (pd_DataFrame skewed_results)) = inr (Some km) /\
     OptionB.insights demand_oracle (default_input 500 20 10 15)
       (Some (pd_DataFrame skewed_results)) = inr (Some ins) /\
     OptionB.mean_throughput km = Some m /\
     (m / qc 9300 - 1) * qc 100 < 0 /\
     ~ In (Some ((m / qc 9300 - 1) * qc 100)) (displayed_numbers km ins)) /\
  (exists base ins,
     OptionB.baseline demand_oracle zero_demand_input = inr base /\
     total_throughput base = 0 /\
     OptionB.insights demand_oracle zero_demand_input
       (Some (pd_DataFrame (repeat (OptionB.row_of base) 3))) = inr (Some ins) /\
     OptionB.worst_case_pct ins = None /\ OptionB.best_case_pct ins = None).
Proof.
  split.
  - eexists. eexists. eexists.
    split; [vm_compute; reflexivity|].
    split; [vm_compute; reflexivity|].
    split; [reflexivity|].
    split; [vm_compute; reflexivity|].
    unfold displayed_numbers.
    cbn [OptionB.mean_throughput OptionB.percentile_5 OptionB.percentile_95
         OptionB.delta_mean OptionB.delta_5 OptionB.delta_95
         OptionB.mean_vs_baseline OptionB.prob_above_baseline
         OptionB.worst_case OptionB.worst_case_pct OptionB.best_case
         OptionB.best_case_pct OptionB.bottleneck_pct In].
    intros H.
    repeat (destruct H as [H | H]; [differ H|]).
    exact H.
  - eexists. eexists.
    split; [reflexivity|].
    split; [apply Qc_is_canon; vm_compute; reflexivity|].
    split; [vm_compute; reflexivity|].
    split; reflexivity.
Qed.

Lemma pct_vs_nonzero (p base : Qc) :
  base <> 0 ->
  OptionB.pct_vs (Some p) base = Some ((p - base) / base * qc 100).
Proof.
  intros Hb. unfold OptionB.pct_vs, fdiv.
  destruct (Qceqb base 0) eqn:E; [apply Qceqb_eq in E; contradiction|].
  cbn. f_equal. field. exact Hb.
Qed.

(** C7, amended. On a non-empty Dataset the key metrics give the deltas
    of the mean, the 5th and the 95th percentile against the baseline
    as amounts, the insights panel repeats the amount for the mean and,
    for a non-zero baseline, gives the two percentiles as a percentage
    of the baseline throughput (no percentage is given for the mean).
    The percentage improvement of the scenario comparator is guarded:
    it is the improvement over the baseline scenario in percent when
    that scenario's throughput is positive and 0 otherwise, so that the
    comparator always returns. *)
Theorem baseline_deltas (oracle : Oracle) (inp : OptionB.Input)
  (results : list Row) (base : OptResult) :
  results <> [] -> OptionB.baseline oracle inp = inr base ->
  let tb := total_throughput base in
  (exists km ins m p5 p95,
     OptionB.key_metrics oracle inp (Some (pd_DataFrame results))
     = inr (Some km) /\
     OptionB.insights oracle inp (Some (pd_DataFrame results))
     = inr (Some ins) /\
     OptionB.mean_throughput km = Some m /\
     OptionB.percentile_5 km = Some p5 /\
     OptionB.percentile_95 km = Some p95 /\
     OptionB.delta_mean km = Some (m - tb) /\
     OptionB.delta_5 km = Some (p5 - tb) /\
     OptionB.delta_95 km = Some (p95 - tb) /\
     OptionB.mean_vs_baseline ins = Some (m - tb) /\
     (tb <> 0 ->
      OptionB.worst_case_pct ins = Some ((p5 - tb) / tb * qc 100) /\
      OptionB.best_case_pct ins = Some ((p95 - tb) / tb * qc 100))) /\
  (forall list_set r,
     OptionA.set_iteration list_set ->
     exists ins,
       OptionA.insights list_set r = inr ins /\
       forall improvement improvement_pct,
         OptionA.improvement_box ins = Some (improvement, improvement_pct) ->
         improvement = OptionA.best_throughput ins - OptionA.tp (OptionA.s1 r) /\
         (0 < OptionA.tp (OptionA.s1 r) ->
          improvement_pct
          = improvement / OptionA.tp (OptionA.s1 r) * qc 100) /\
         (OptionA.tp (OptionA.s1 r) <= 0 -> improvement_pct = 0)).
Proof.
  intros Hne Hb tb. split.
  - destruct (key_metrics_spec oracle inp results base Hne Hb)
      as (m & p5 & p95 & Em & E5 & E95 & _ & Ekm).
    destruct (insights_spec oracle inp results base Hne Hb)
      as (m' & q5 & q95 & b & c & rest & Em' & E5' & E95' & _ & Eins).
    rewrite Em in Em'. rewrite E5 in E5'. rewrite E95 in E95'.
    injection Em' as <-. injection E5' as <-. injection E95' as <-.
    eexists. eexists. exists m, p5, p95.
    split; [exact Ekm|]. split; [exact Eins|].
    cbn [OptionB.mean_throughput OptionB.percentile_5 OptionB.percentile_95
         OptionB.delta_mean OptionB.delta_5 OptionB.delta_95
         OptionB.mean_vs_baseline OptionB.worst_case_pct OptionB.best_case_pct].
    repeat (split; [reflexivity|]).
    intros Htb. split; apply pct_vs_nonzero, Htb.
  - intros list_set r Hset.
    destruct (insights_returns list_set r Hset)
      as (i & best & box & _ & _ & _ & _ & Eins).
    eexists. split; [exact Eins|].
    cbn [OptionA.improvement_box OptionA.best_throughput].
    intros improvement improvement_pct Himp.
    destruct (negb (i =? 0)%nat); [|discriminate Himp].
    injection Himp as <- <-. split; [reflexivity|]. split.
    + intros Hpos. apply Qcltb_lt in Hpos. rewrite Hpos. reflexivity.
    + intros Hle. apply Qcltb_ge in Hle. rewrite Hle. reflexivity.
Qed.

Lemma baseline_deltas_witness :
  exists km ins m,
    OptionB.key_metrics demand_oracle (default_input 500 20 10 15)
      (Some (pd_DataFrame skewed_results)) = inr (Some km) /\
    OptionB.insights demand_oracle (default_input 500 20 10 15)
      (Some (pd_DataFrame skewed_results)) = inr (Some ins) /\
    OptionB.mean_throughput km = Some m /\
    OptionB.delta_mean km = Some (m - (qc 90 * qc 50 + qc 60 * qc 80)).
Proof.
  destruct (proj1 (baseline_deltas demand_oracle (default_input 500 20 10 15)
                     skewed_results _ ltac:(cbn; discriminate) eq_refl))
    as (km & ins & m & p5 & p95 & Ekm & Eins & Em & _ & _ & Hd & _).
  exists km, ins, m. repeat split; assumption.
Defined.

(* ------------------------------------------------------------------ *)
(** * Further properties of the simulation runner *)

Lemma advance_0 (g : OptionB.Rng) : advance g 0 = g.
Proof. destruct g as [t p]. unfold advance; cbn. f_equal. lia. Qed.

Lemma generate_advance (inp : OptionB.Input) (g g' : OptionB.Rng) (s : Scenario) :
  OptionB.generate inp g = inr (s, g') -> g' = advance g 7.
Proof.
  unfold OptionB.generate, OptionB.rbind, OptionB.np_random_normal, OptionB.rret.
  intros H. cbn [OptionB.tape OptionB.pos] in H.
  split_normal H.
  injection H as _ <-. unfold advance. f_equal. lia.
Qed.

Lemma trials_closed_form (oracle : Oracle) (inp : OptionB.Input) :
  forall n results g results' g',
    OptionB.trials oracle inp n results g = inr (results', g') ->
    g' = advance g (7 * n) /\
    exists new,
      results' = results ++ new /\ List.length new = n /\
      forall i, (i < n)%nat ->
        exists s res,
          OptionB.generate inp (advance g (7 * i))
          = inr (s, advance g (7 * (i + 1))) /\
          floored s /\ oracle s = inr res /\
          nth_error new i = Some (OptionB.row_of res).
Proof.
  induction n as [|n IH]; intros results g results' g' H.
  - cbn in H. injection H as <- <-. rewrite advance_0. split; [reflexivity|].
    exists []. rewrite app_nil_r. repeat split. intros i Hi. lia.
  - cbn [OptionB.trials] in H. unfold OptionB.rbind at 1 in H.
    unfold OptionB.trial, OptionB.rbind in H.
    destruct (OptionB.generate inp g) as [e | [s g1]] eqn:Eg; [discriminate H|].
    unfold OptionB.lift in H.
    destruct (oracle s) as [e | res] eqn:Eo; [discriminate H|].
    cbn [OptionB.rret] in H.
    pose proof (generate_advance _ _ _ _ Eg) as ->.
    destruct (IH _ _ _ _ H) as (Hg & new & Hres & Hlen & Hrows).
    split.
    { rewrite Hg, advance_advance. f_equal. lia. }
    exists (OptionB.row_of res :: new).
    split; [rewrite Hres, <- app_assoc; reflexivity|].
    split; [cbn; lia|].
    intros [|i] Hi.
    + exists s, res. rewrite advance_0.
      split; [exact Eg|]. split; [eapply generate_floored; eassumption|].
      split; [exact Eo | reflexivity].
    + destruct (Hrows i ltac:(lia)) as (s' & res' & Hgen & Hfl & Hor & Hnth).
      exists s', res'. rewrite !advance_advance in Hgen.
      replace (7 * S i)%nat with (7 + 7 * i)%nat by lia.
      replace (7 * (S i + 1))%nat with (7 + 7 * (i + 1))%nat by lia.
      split; [exact Hgen|]. split; [exact Hfl|]. split; [exact Hor | exact Hnth].
Qed.

(** X1. A run that returns has collected exactly [n_sims] rows (the
    number the status banner shows), has consumed seven variates per
    trial, and its row number [i] is the oracle's result on the floored
    scenario sampled from the seven variates that start at [7 * i]:
    no trial depends on another trial's outcome. *)
Theorem run_simulation_rows (oracle : Oracle) (inp : OptionB.Input)
  (g g' : OptionB.Rng) (df : DataFrame) :
  OptionB.run_simulation oracle inp g = inr (df, g') ->
  g' = advance g (7 * OptionB.n_sims inp) /\
  len df = OptionB.n_sims inp /\
  OptionB.simulation_status (Some df) = Some (OptionB.n_sims inp) /\
  forall i, (i < OptionB.n_sims inp)%nat ->
    exists s res,
      OptionB.generate inp (advance g (7 * i))
      = inr (s, advance g (7 * (i + 1))) /\
      floored s /\ oracle s = inr res /\
      nth_error (rows df) i = Some (OptionB.row_of res).
Proof.
  unfold OptionB.run_simulation, OptionB.rbind. intros H.
  destruct (OptionB.trials oracle inp (OptionB.n_sims inp) [] g)
    as [e | [results g1]] eqn:Et; [discriminate H|].
  cbn [OptionB.rret] in H. injection H as <- <-.
  destruct (trials_closed_form oracle inp _ _ _ _ _ Et)
    as (Hg & new & Hres & Hlen & Hrows).
  cbn [app] in Hres. subst results.
  unfold OptionB.simulation_status, len. cbn [rows pd_DataFrame].
  rewrite Hlen. split; [exact Hg|]. split; [reflexivity|].
  split; [reflexivity | exact Hrows].
Qed.

Lemma run_simulation_rows_witness :
  exists df g',
    OptionB.run_simulation demand_oracle (default_input 3 20 10 15)
      (constant_rng (-1000)) = inr (df, g') /\
    len df = 3%nat.
Proof.
  destruct (OptionB.run_simulation demand_oracle (default_input 3 20 10 15)
              (constant_rng (-1000))) as [e | [df g']] eqn:E.
  - vm_compute in E. discriminate E.
  - exists df, g'. split; [reflexivity|].
    exact (proj1 (proj2 (run_simulation_rows _ _ _ _ _ E))).
Defined.

Lemma trials_oracle_failure (oracle : Oracle) (inp : OptionB.Input) (e : exn) :
  forall k n results g s g1,
    (k < n)%nat ->
    (forall i, (i < k)%nat ->
       exists s' res,
         OptionB.generate inp (advance g (7 * i))
         = inr (s', advance g (7 * (i + 1))) /\ oracle s' = inr res) ->
    OptionB.generate inp (advance g (7 * k)) = inr (s, g1) ->
    oracle s = inl e ->
    OptionB.trials oracle inp n results g = inl e.
Proof.
  induction k as [|k IH]; intros n results g s g1 Hk Hprev Hgen Hor;
    destruct n as [|n]; try lia;
    cbn [OptionB.trials]; unfold OptionB.rbind at 1;
    unfold OptionB.trial, OptionB.rbind.
  - rewrite advance_0 in Hgen. rewrite Hgen. unfold OptionB.lift.
    rewrite Hor. reflexivity.
  - destruct (Hprev 0%nat ltac:(lia)) as (s0 & res0 & Hg0 & Ho0).
    rewrite advance_0 in Hg0. rewrite Hg0. unfold OptionB.lift.
    rewrite Ho0. cbn [OptionB.rret].
    apply (IH n _ (advance g (7 * (0 + 1))) s g1); [lia | | | exact Hor].
    + intros i Hi. destruct (Hprev (S i) ltac:(lia)) as (s' & res & Hg' & Ho').
      exists s', res. rewrite !advance_advance. split; [|exact Ho'].
      replace (7 * (0 + 1) + 7 * i)%nat with (7 * S i)%nat by lia.
      replace (7 * (0 + 1) + 7 * (i + 1))%nat with (7 * (S i + 1))%nat by lia.
      exact Hg'.
    + rewrite advance_advance.
      replace (7 * (0 + 1) + 7 * k)%nat with (7 * S k)%nat by lia.
      exact Hgen.
Qed.

(** X2. An oracle failure is not caught: when the trials before trial
    [k] succeed and the oracle raises [e] on the scenario sampled for
    trial [k], the whole run raises [e] and no Dataset is stored, not
    even the rows collected so far. *)
Theorem run_simulation_oracle_failure (oracle : Oracle) (inp : OptionB.Input)
  (g g1 : OptionB.Rng) (k : nat) (s : Scenario) (e : exn) :
  (k < OptionB.n_sims inp)%nat ->
  (forall i, (i < k)%nat ->
     exists s' res,
       OptionB.generate inp (advance g (7 * i))
       = inr (s', advance g (7 * (i + 1))) /\ oracle s' = inr res) ->
  OptionB.generate inp (advance g (7 * k)) = inr (s, g1) ->
  oracle s = inl e ->
  OptionB.run_simulation oracle inp g = inl e.
Proof.
  intros Hk Hprev Hgen Hor. unfold OptionB.run_simulation, OptionB.rbind.
  rewrite (trials_oracle_failure oracle inp e k _ [] g s g1 Hk Hprev Hgen Hor).
  reflexivity.
Qed.

(** An oracle that cannot solve a scenario whose demand for A is 0. *)
Definition picky_oracle : Oracle := fun s =>
  if Qceqb (demand_a s) 0 then raise OracleError else demand_oracle s.

Lemma run_simulation_oracle_failure_witness :
  OptionB.run_simulation picky_oracle (default_input 500 20 10 15)
    (constant_rng (-1000)) = inl OracleError.
Proof.
  destruct (OptionB.generate (default_input 500 20 10 15)
              (advance (constant_rng (-1000)) (7 * 0))) as [e | [s g1]] eqn:E.
  - vm_compute in E. discriminate E.
  - apply (run_simulation_oracle_failure picky_oracle (default_input 500 20 10 15)
             (constant_rng (-1000)) g1 0 s OracleError).
    + cbn. lia.
    + intros i Hi. lia.
    + exact E.
    + vm_compute in E. injection E as <- _. vm_compute. reflexivity.
Defined.

(** The seven standard deviations handed to [np.random.normal]. *)
Definition scales (inp : OptionB.Input) : list Qc :=
  [OptionB.base_dema inp * OptionB.demand_unc inp / qc 100;
   OptionB.base_demb inp * OptionB.demand_unc inp / qc 100;
   OptionB.base_heat inp * OptionB.capacity_unc inp / qc 100;
   OptionB.base_mach inp * OptionB.capacity_unc inp / qc 100;
   OptionB.base_assy inp * OptionB.capacity_unc inp / qc 100;
   OptionB.base_profa inp * OptionB.price_unc inp / qc 100;
   OptionB.base_profb inp * OptionB.price_unc inp / qc 100].

Lemma generate_raises_iff (inp : OptionB.Input) (g : OptionB.Rng) (e : exn) :
  OptionB.generate inp g = inl e
  <-> e = ValueError /\ exists x, In x (scales inp) /\ x < 0.
Proof.
  unfold OptionB.generate, OptionB.rbind, OptionB.np_random_normal,
    OptionB.rret, scales.
  cbn [OptionB.tape OptionB.pos].
  repeat match goal with
  | |- context [if Qcltb ?a 0 then _ else _] =>
      let E := fresh "E" in
      destruct (Qcltb a 0) eqn:E;
      [ apply Qcltb_lt in E; split;
        [ intros H; injection H as <-; split; [reflexivity|];
          eexists; split; [|exact E]; cbn; tauto
        | intros [-> _]; reflexivity ]
      | ]
  end.
  split; [intros H; discriminate H|].
  intros [_ (x & Hin & Hx)]. exfalso. apply Qcltb_lt in Hx.
  cbn in Hin.
  repeat (destruct Hin as [<- | Hin]; [congruence|]). exact Hin.
Qed.

(** X3. The sampler raises exactly when one of the seven standard
    deviations [base * uncertainty / 100] is negative, and then it
    raises [ValueError]; a run of at least one trial then raises
    [ValueError] whatever the oracle, which is never consulted. *)
Theorem negative_scale_raises (inp : OptionB.Input) :
  (forall g e, OptionB.generate inp g = inl e
               <-> e = ValueError /\ exists x, In x (scales inp) /\ x < 0) /\
  ((exists x, In x (scales inp) /\ x < 0) ->
   (0 < OptionB.n_sims inp)%nat ->
   forall oracle g, OptionB.run_simulation oracle inp g = inl ValueError).
Proof.
  split; [intros g e; apply generate_raises_iff|].
  intros Hneg Hn oracle g.
  assert (Hgen : OptionB.generate inp g = inl ValueError)
    by (apply generate_raises_iff; split; [reflexivity | exact Hneg]).
  unfold OptionB.run_simulation.
  destruct (OptionB.n_sims inp) as [|n]; [lia|].
  cbn [OptionB.trials]. unfold OptionB.rbind, OptionB.trial, OptionB.rbind.
  rewrite Hgen. reflexivity.
Qed.

Lemma negative_scale_raises_witness :
  OptionB.run_simulation demand_oracle (default_input 500 (-20) 10 15)
    (constant_rng 3) = inl ValueError.
Proof.
  apply (proj2 (negative_scale_raises (default_input 500 (-20) 10 15))).
  - eexists. split; [left; reflexivity|]. vm_compute. reflexivity.
  - cbn. lia.
Defined.

(* ------------------------------------------------------------------ *)
(** * Further properties of the aggregates *)

Lemma sum_lower (s : list Qc) (lo : Qc) :
  (forall x, In x s -> lo <= x) -> qcn (List.length s) * lo <= sum s.
Proof.
  induction s as [|x s IH]; intros H.
  - cbn [List.length sum fold_right]. change (qcn 0) with 0. qc_lra.
  - cbn [List.length sum fold_right]. fold (sum s). rewrite qcn_S.
    assert (H1 : lo <= x) by (apply H; cbn; auto).
    assert (H2 : qcn (List.length s) * lo <= sum s)
      by (apply IH; intros; apply H; cbn; auto).
    qc_to_Q. lra.
Qed.

Lemma sum_upper (s : list Qc) (hi : Qc) :
  (forall x, In x s -> x <= hi) -> sum s <= qcn (List.length s) * hi.
Proof.
  induction s as [|x s IH]; intros H.
  - cbn [List.length sum fold_right]. change (qcn 0) with 0. qc_lra.
  - cbn [List.length sum fold_right]. fold (sum s). rewrite qcn_S.
    assert (H1 : x <= hi) by (apply H; cbn; auto).
    assert (H2 : sum s <= qcn (List.length s) * hi)
      by (apply IH; intros; apply H; cbn; auto).
    qc_to_Q. lra.
Qed.

Lemma div_bounds (x n lo hi : Qc) :
  0 < n -> n * lo <= x -> x <= n * hi -> lo <= x / n /\ x / n <= hi.
Proof.
  intros Hn Hlo Hhi. qc_to_Q. split.
  - apply Qle_shift_div_l; [exact Hn | lra].
  - apply Qle_shift_div_r; [exact Hn | lra].
Qed.

Lemma mean_between (s : list Qc) (lo hi : Qc) :
  s <> [] -> (forall x, In x s -> lo <= x /\ x <= hi) ->
  exists m, Series.mean s = Some m /\ lo <= m /\ m <= hi.
Proof.
  intros Hs H. rewrite mean_nonempty by exact Hs.
  eexists. split; [reflexivity|].
  apply div_bounds.
  - apply qcn_pos, length_pos, Hs.
  - apply sum_lower. intros x Hx. apply H, Hx.
  - apply sum_upper. intros x Hx. apply H, Hx.
Qed.

Definition within (lo hi : Qc) (f : float) : Prop :=
  exists v, f = Some v /\ lo <= v /\ v <= hi.

Lemma quantile_within (s : list Qc) (q lo hi : Qc) :
  s <> [] -> 0 <= q -> q <= 1 ->
  (forall x, In x s -> lo <= x /\ x <= hi) ->
  exists f, Series.quantile s q = inr f /\ within lo hi f.
Proof.
  intros Hs H0 H1 H.
  destruct (quantile_between s q Hs H0 H1) as (v & a & b & E & Ha & Hb & Hav & Hvb).
  exists (Some v). split; [exact E|]. exists v. split; [reflexivity|].
  split; eapply Qcle_trans; eauto; apply H; assumption.
Qed.

(** X4. Every quantile of a non-empty Dataset stays within the range of
    the observed trials: when all throughputs lie in [[lo, hi]], so do
    the 5th and 95th percentile of the key metrics and both bounds of
    every row of the confidence-interval table. *)
Theorem aggregates_within_range (oracle : Oracle) (inp : OptionB.Input)
  (results : list Row) (base : OptResult) (lo hi : Qc) :
  results <> [] -> OptionB.baseline oracle inp = inr base ->
  (forall r, In r results -> lo <= throughput r /\ throughput r <= hi) ->
  (exists km,
     OptionB.key_metrics oracle inp (Some (pd_DataFrame results))
     = inr (Some km) /\
     within lo hi (OptionB.percentile_5 km) /\
     within lo hi (OptionB.percentile_95 km)) /\
  (exists table,
     OptionB.confidence_intervals (Some (pd_DataFrame results)) = inr table /\
     forall row, In row table ->
       within lo hi (OptionB.Lower_Bound row) /\
       within lo hi (OptionB.Upper_Bound row)).
Proof.
  intros Hne Hb Hrange.
  assert (Hs : forall x, In x (map throughput results) -> lo <= x /\ x <= hi).
  { intros x Hx. apply in_map_iff in Hx as (r & <- & Hr). apply Hrange, Hr. }
  pose proof (map_nonempty throughput _ Hne) as Hsne.
  split.
  - destruct (key_metrics_spec oracle inp results base Hne Hb)
      as (m & p5 & p95 & Em & E5 & E95 & _ & Ekm).
    eexists. split; [exact Ekm|].
    cbn [OptionB.percentile_5 OptionB.percentile_95].
    destruct q005_q095 as (H0 & H1 & H2).
    split.
    + destruct (quantile_within _ OptionB.q005 lo hi Hsne H0
                  (Qcle_trans _ _ _ H1 H2) Hs) as (f & Ef & Hf).
      rewrite E5 in Ef. injection Ef as <-. exact Hf.
    + destruct (quantile_within _ OptionB.q095 lo hi Hsne
                  (Qcle_trans _ _ _ H0 H1) H2 Hs) as (f & Ef & Hf).
      rewrite E95 in Ef. injection Ef as <-. exact Hf.
  - destruct (confidence_intervals_spec results Hne) as (table & E & Hc & Hok).
    exists table. split; [exact E|]. intros row Hrow.
    rewrite Forall_forall in Hok. destruct (Hok row Hrow) as (El & Eu & _).
    pose proof confidence_levels_range as Hlv.
    rewrite <- Hc, Forall_forall in Hlv.
    destruct (Hlv _ (in_map OptionB.Confidence _ _ Hrow)) as [Hc0 Hc100].
    split.
    + destruct (quantile_within _ (lower_level (OptionB.Confidence row)) lo hi Hsne)
        as (f & Ef & Hf); try assumption; try (unfold lower_level; qc_lra).
      rewrite El in Ef. injection Ef as <-. exact Hf.
    + destruct (quantile_within _ (upper_level (OptionB.Confidence row)) lo hi Hsne)
        as (f & Ef & Hf); try assumption; try (unfold upper_level; qc_lra).
      rewrite Eu in Ef. injection Ef as <-. exact Hf.
Qed.

Lemma aggregates_within_range_witness :
  exists km,
    OptionB.key_metrics demand_oracle (default_input 500 20 10 15)
      (Some (pd_DataFrame skewed_results)) = inr (Some km) /\
    within (qc 5000) (qc 7800) (OptionB.percentile_5 km).
Proof.
  destruct (aggregates_within_range demand_oracle (default_input 500 20 10 15)
              skewed_results _ (qc 5000) (qc 7800)
              ltac:(cbn; discriminate) eq_refl) as [(km & E & Hm & _) _].
  - intros r Hr. cbn in Hr.
    repeat (destruct Hr as [<- | Hr]; [split; vm_compute; discriminate|]).
    destruct Hr.
  - exists km. split; assumption.
Defined.

(** X5. On a non-empty Dataset the confidence-interval table has five
    rows, for the levels 50, 80, 90, 95, 99 in this order; the Range of
    a row is its upper bound minus its lower bound and is never
    negative, and a higher level never has a smaller Range. *)
Theorem confidence_table_shape (results : list Row) :
  results <> [] ->
  exists table,
    OptionB.confidence_intervals (Some (pd_DataFrame results)) = inr table /\
    List.length table = 5%nat /\
    map OptionB.Confidence table = [qc 50; qc 80; qc 90; qc 95; qc 99] /\
    (forall row, In row table ->
       exists l u,
         OptionB.Lower_Bound row = Some l /\ OptionB.Upper_Bound row = Some u /\
         OptionB.Range row = Some (u - l) /\ 0 <= u - l) /\
    (forall r1 r2, In r1 table -> In r2 table ->
       OptionB.Confidence r1 < OptionB.Confidence r2 ->
       exists w1 w2,
         OptionB.Range r1 = Some w1 /\ OptionB.Range r2 = Some w2 /\ w1 <= w2).
Proof.
  intros Hne.
  destruct (confidence_intervals_spec results Hne) as (table & E & Hc & Hok).
  exists table. split; [exact E|].
  split; [rewrite <- (length_map OptionB.Confidence), Hc; reflexivity|].
  split; [exact Hc|].
  rewrite Forall_forall in Hok. split.
  - intros row Hrow.
    destruct (Hok row Hrow) as (_ & _ & l & u & El & Eu & Hle & Er).
    exists l, u. repeat split; try assumption. qc_lra.
  - intros r1 r2 Hr1 Hr2 Hlt.
    pose proof confidence_levels_range as Hrange.
    rewrite <- Hc, Forall_forall in Hrange.
    destruct (Hrange _ (in_map OptionB.Confidence _ _ Hr1)) as [H10 _].
    destruct (Hrange _ (in_map OptionB.Confidence _ _ Hr2)) as [_ H2100].
    destruct (ci_nested (map throughput results) _ _ (map_nonempty _ _ Hne)
                H10 (Qclt_le_weak _ _ Hlt) H2100)
      as (l1 & u1 & l2 & u2 & El1 & Eu1 & El2 & Eu2 & Hl & Hlu & Hu).
    destruct (Hok r1 Hr1) as (Kl1 & Ku1 & a1 & b1 & Ka1 & Kb1 & _ & Kr1).
    destruct (Hok r2 Hr2) as (Kl2 & Ku2 & a2 & b2 & Ka2 & Kb2 & _ & Kr2).
    rewrite El1, Ka1 in Kl1. rewrite Eu1, Kb1 in Ku1.
    rewrite El2, Ka2 in Kl2. rewrite Eu2, Kb2 in Ku2.
    injection Kl1 as ->. injection Ku1 as ->.
    injection Kl2 as ->. injection Ku2 as ->.
    exists (b1 - a1), (b2 - a2). repeat split; try assumption. qc_lra.
Qed.

Lemma confidence_table_shape_witness :
  exists table,
    OptionB.confidence_intervals (Some (pd_DataFrame skewed_results)) = inr table /\
    List.length table = 5%nat.
Proof.
  destruct (confidence_table_shape skewed_results ltac:(cbn; discriminate))
    as (table & E & Hlen & _).
  exists table. split; assumption.
Defined.

Lemma count_le_length (p : Qc -> bool) (s : list Qc) :
  (count p s <= List.length s)%nat.
Proof. unfold count. apply filter_length_le. Qed.

Lemma count_mono (p q : Qc -> bool) (s : list Qc) :
  (forall x, p x = true -> q x = true) -> (count p s <= count q s)%nat.
Proof.
  intros H. unfold count. induction s as [|x s IH]; [cbn; lia|].
  cbn [filter]. destruct (p x) eqn:Ep.
  - rewrite (H x Ep). cbn [List.length]. lia.
  - destruct (q x); cbn [List.length]; lia.
Qed.

Lemma qcn_le (a b : nat) : (a <= b)%nat -> qcn a <= qcn b.
Proof.
  intros H. replace b with (a + (b - a))%nat by lia. rewrite qcn_plus.
  pose proof (qcn_nonneg (b - a)). qc_to_Q. lra.
Qed.

Lemma pct_mono (x y n : Qc) :
  0 < n -> x <= y -> x / n * qc 100 <= y / n * qc 100.
Proof.
  intros Hn Hxy. qc_to_Q. unfold Qdiv.
  assert (Hi : (0 < / this n)%Q) by (apply Qinv_lt_0_compat; exact Hn).
  set (i := (/ this n)%Q) in *. unfold inject_Z. nra.
Qed.

Lemma pct_bounds (c n : nat) :
  (0 < n)%nat -> (c <= n)%nat ->
  0 <= qcn c / qcn n * qc 100 /\ qcn c / qcn n * qc 100 <= qc 100.
Proof.
  intros Hn Hc. split.
  - rewrite <- (frac_none n).
    apply pct_mono; [apply qcn_pos, Hn | apply qcn_le; lia].
  - rewrite <- (frac_all n Hn) at 2.
    apply pct_mono; [apply qcn_pos, Hn | apply qcn_le, Hc].
Qed.

(** X6. Both probabilities of the calculator are percentages between 0
    and 100, and raising the target never raises the probability of
    achieving it: for two settings of the inputs evaluated on the same
    non-empty Dataset, the one with the higher target used has the
    lower or equal probability of exceeding. *)
Theorem probability_monotone (oracle : Oracle) (inp1 inp2 : OptionB.Input)
  (results : list Row) (base1 base2 : OptResult) :
  results <> [] ->
  OptionB.baseline oracle inp1 = inr base1 ->
  OptionB.baseline oracle inp2 = inr base2 ->
  exists pr1 pr2 e1 b1 e2 b2,
    OptionB.probability_result oracle inp1 (Some (pd_DataFrame results))
    = inr (Some pr1) /\
    OptionB.probability_result oracle inp2 (Some (pd_DataFrame results))
    = inr (Some pr2) /\
    OptionB.prob_exceed pr1 = Some e1 /\ OptionB.prob_below pr1 = Some b1 /\
    OptionB.prob_exceed pr2 = Some e2 /\ OptionB.prob_below pr2 = Some b2 /\
    0 <= e1 /\ e1 <= qc 100 /\ 0 <= b1 /\ b1 <= qc 100 /\
    (OptionB.used_target pr1 <= OptionB.used_target pr2 ->
     e2 <= e1 /\ b1 <= b2).
Proof.
  intros Hne Hb1 Hb2.
  pose proof (probability_result_spec oracle inp1 results base1 Hne Hb1) as E1.
  pose proof (probability_result_spec oracle inp2 results base2 Hne Hb2) as E2.
  cbv zeta in E1, E2.
  pose proof (length_pos _ (map_nonempty throughput _ Hne)) as Hlen.
  do 6 eexists. split; [exact E1|]. split; [exact E2|].
  cbn [OptionB.prob_exceed OptionB.prob_below OptionB.used_target].
  do 4 (split; [reflexivity|]).
  split; [apply pct_bounds; [exact Hlen | apply count_le_length]|].
  split; [apply pct_bounds; [exact Hlen | apply count_le_length]|].
  split; [apply pct_bounds; [exact Hlen | apply count_le_length]|].
  split; [apply pct_bounds; [exact Hlen | apply count_le_length]|].
  intros Ht. split; (apply pct_mono; [apply qcn_pos, Hlen|]); apply qcn_le, count_mono.
  - intros x Hx. apply Qcleb_le in Hx. apply Qcleb_le.
    eapply Qcle_trans; eassumption.
  - intros x Hx. apply Qcltb_lt in Hx. apply Qcltb_lt.
    eapply Qclt_le_trans; eassumption.
Qed.

Definition with_target (inp : OptionB.Input) (t : Z) : OptionB.Input :=
  {| OptionB.n_sims := OptionB.n_sims inp;
     OptionB.base_heat := OptionB.base_heat inp;
     OptionB.base_mach := OptionB.base_mach inp;
     OptionB.base_assy := OptionB.base_assy inp;
     OptionB.base_dema := OptionB.base_dema inp;
     OptionB.base_demb := OptionB.base_demb inp;
     OptionB.base_profa := OptionB.base_profa inp;
     OptionB.base_profb := OptionB.base_profb inp;
     OptionB.demand_unc := OptionB.demand_unc inp;
     OptionB.capacity_unc := OptionB.capacity_unc inp;
     OptionB.price_unc := OptionB.price_unc inp;
     OptionB.target := Some (qc t) |}.

Lemma probability_monotone_witness :
  exists pr1 pr2 e1 e2,
    OptionB.probability_result demand_oracle
      (with_target (default_input 500 20 10 15) 6000)
      (Some (pd_DataFrame skewed_results)) = inr (Some pr1) /\
    OptionB.probability_result demand_oracle
      (with_target (default_input 500 20 10 15) 7800)
      (Some (pd_DataFrame skewed_results)) = inr (Some pr2) /\
    OptionB.prob_exceed pr1 = Some e1 /\ OptionB.prob_exceed pr2 = Some e2 /\
    e2 <= e1.
Proof.
  destruct (probability_monotone demand_oracle
              (with_target (default_input 500 20 10 15) 6000)
              (with_target (default_input 500 20 10 15) 7800)
              skewed_results _ _ ltac:(cbn; discriminate) eq_refl eq_refl)
    as (pr1 & pr2 & e1 & b1 & e2 & b2 & E1 & E2 & He1 & _ & He2 & _ & _ & _ & _ & _ & Hm).
  exists pr1, pr2, e1, e2. repeat split; try assumption.
  apply Hm.
  pose proof (probability_result_spec demand_oracle
                (with_target (default_input 500 20 10 15) 6000)
                skewed_results _ ltac:(cbn; discriminate) eq_refl) as K1.
  pose proof (probability_result_spec demand_oracle
                (with_target (default_input 500 20 10 15) 7800)
                skewed_results _ ltac:(cbn; discriminate) eq_refl) as K2.
  cbv zeta in K1, K2. rewrite K1 in E1. rewrite K2 in E2.
  injection E1 as <-. injection E2 as <-.
  vm_compute. discriminate.
Defined.

(** ** The order of the trials *)

Lemma sum_perm (l l' : list Qc) : Permutation l l' -> sum l = sum l'.
Proof.
  induction 1 as [| x l l' _ IH | x y l | l l' l'' _ IH1 _ IH2].
  - reflexivity.
  - cbn. fold (sum l) (sum l'). rewrite IH. reflexivity.
  - cbn. fold (sum l). ring.
  - congruence.
Qed.

Lemma sorted_unique (l l' : list Qc) :
  StronglySorted Qcle l -> StronglySorted Qcle l' -> Permutation l l' -> l = l'.
Proof.
  intros Hl. revert l'.
  induction Hl as [|x l Hs IH Hx]; intros l' Hl' Hp.
  - apply Permutation_nil in Hp. congruence.
  - destruct Hl' as [|y l' Hs' Hy].
    + apply Permutation_sym, Permutation_nil in Hp. discriminate Hp.
    + assert (Exy : x = y).
      { rewrite Forall_forall in Hx, Hy.
        assert (Hxin : In x (y :: l')) by (eapply Permutation_in; [exact Hp | cbn; auto]).
        assert (Hyin : In y (x :: l))
          by (eapply Permutation_in; [apply Permutation_sym; exact Hp | cbn; auto]).
        apply Qcle_antisym.
        - destruct Hyin as [-> | Hyin]; [apply Qcle_refl | apply Hx, Hyin].
        - destruct Hxin as [-> | Hxin]; [apply Qcle_refl | apply Hy, Hxin]. }
      subst y. f_equal. apply IH; [exact Hs'|].
      eapply Permutation_cons_inv; exact Hp.
Qed.

Lemma sort_perm (s s' : list Qc) :
  Permutation s s' -> QcSort.sort s = QcSort.sort s'.
Proof.
  intros Hp. apply sorted_unique; try apply sort_sorted.
  eapply Permutation_trans; [apply Permutation_sym, QcSort.Permuted_sort|].
  eapply Permutation_trans; [exact Hp | apply QcSort.Permuted_sort].
Qed.

Lemma mean_perm (s s' : list Qc) :
  Permutation s s' -> Series.mean s = Series.mean s'.
Proof.
  intros Hp. destruct s as [|x s].
  - apply Permutation_nil in Hp. subst s'. reflexivity.
  - destruct s' as [|y s'];
      [apply Permutation_sym, Permutation_nil in Hp; discriminate Hp|].
    unfold Series.mean.
    rewrite (sum_perm _ _ Hp), (Permutation_length Hp). reflexivity.
Qed.

Lemma quantile_perm (s s' : list Qc) (q : Qc) :
  Permutation s s' -> Series.quantile s q = Series.quantile s' q.
Proof.
  intros Hp. unfold Series.quantile. rewrite (sort_perm s s' Hp). reflexivity.
Qed.

Lemma mean_bool_perm (p : Qc -> bool) (s s' : list Qc) :
  Permutation s s' ->
  Series.mean_bool (map p s) = Series.mean_bool (map p s').
Proof.
  intros Hp. unfold Series.mean_bool. apply mean_perm.
  do 2 apply Permutation_map. exact Hp.
Qed.

Lemma getitem_perm (results results' : list Row) :
  Permutation results results' ->
  exists s s',
    Permutation s s' /\
    (results <> [] -> s <> []) /\
    getitem (pd_DataFrame results) "throughput" throughput
    = (if match results with [] => true | _ => false end
       then inl (KeyError "throughput") else inr s) /\
    getitem (pd_DataFrame results') "throughput" throughput
    = (if match results with [] => true | _ => false end
       then inl (KeyError "throughput") else inr s').
Proof.
  intros Hp. exists (map throughput results), (map throughput results').
  split; [apply Permutation_map, Hp|]. split; [apply map_nonempty|].
  destruct results as [|r rs].
  - apply Permutation_nil in Hp. subst results'. split; reflexivity.
  - destruct results' as [|r' rs'];
      [apply Permutation_sym, Permutation_nil in Hp; discriminate Hp|].
    split; reflexivity.
Qed.

(** X7. The quantiles and the counts do not depend on the order of the
    trials: two Datasets holding the same rows in a different order give
    the same confidence-interval table and the same calculator result
    (also the same exception, if any), and key metrics with the same 5th
    and 95th percentile and the same deltas of both to the baseline. *)
Theorem aggregates_order_insensitive (oracle : Oracle) (inp : OptionB.Input)
  (results results' : list Row) :
  Permutation results results' ->
  OptionB.confidence_intervals (Some (pd_DataFrame results))
  = OptionB.confidence_intervals (Some (pd_DataFrame results')) /\
  OptionB.probability_result oracle inp (Some (pd_DataFrame results))
  = OptionB.probability_result oracle inp (Some (pd_DataFrame results')) /\
  (forall e,
     OptionB.key_metrics oracle inp (Some (pd_DataFrame results)) = inl e ->
     OptionB.key_metrics oracle inp (Some (pd_DataFrame results')) = inl e) /\
  (forall km,
     OptionB.key_metrics oracle inp (Some (pd_DataFrame results))
     = inr (Some km) ->
     exists km',
       OptionB.key_metrics oracle inp (Some (pd_DataFrame results'))
       = inr (Some km') /\
       OptionB.percentile_5 km' = OptionB.percentile_5 km /\
       OptionB.percentile_95 km' = OptionB.percentile_95 km /\
       OptionB.delta_5 km' = OptionB.delta_5 km /\
       OptionB.delta_95 km' = OptionB.delta_95 km).
Proof.
  intros Hp.
  destruct (getitem_perm results results' Hp) as (s & s' & Hs & _ & E & E').
  split; [|split; [|split]].
  - unfold OptionB.confidence_intervals.
    generalize (@nil OptionB.CIRow).
    induction OptionB.confidence_levels as [|c levels IH]; intros acc;
      [reflexivity|].
    cbn [OptionB.ci_loop]. unfold OptionB.ci_row. rewrite E, E'.
    destruct results; [reflexivity|]. cbn [bind].
    rewrite !(quantile_perm _ _ _ Hs).
    destruct (Series.quantile s' _) as [e | lb]; [reflexivity|]. cbn [bind].
    destruct (Series.quantile s' _) as [e | ub]; [reflexivity|]. cbn [bind].
    apply IH.
  - unfold OptionB.probability_result.
    destruct (OptionB.baseline oracle inp) as [e | base]; [reflexivity|].
    cbn [bind]. rewrite E, E'.
    destruct results; [reflexivity|]. cbn [bind].
    unfold Series.ge, Series.lt. rewrite !(mean_bool_perm _ _ _ Hs).
    reflexivity.
  - intros e. unfold OptionB.key_metrics.
    destruct (OptionB.baseline oracle inp) as [e0 | base]; [trivial|].
    cbn [bind]. rewrite E, E'.
    destruct results; [trivial|]. cbn [bind].
    rewrite !(quantile_perm _ _ _ Hs).
    destruct (Series.quantile s' OptionB.q005) as [e5 | p5]; [trivial|].
    cbn [bind].
    destruct (Series.quantile s' OptionB.q095) as [e95 | p95]; [trivial|].
    cbn [bind ret]. discriminate.
  - intros km. unfold OptionB.key_metrics.
    destruct (OptionB.baseline oracle inp) as [e0 | base]; [discriminate|].
    cbn [bind]. rewrite E, E'.
    destruct results; [discriminate|]. cbn [bind].
    rewrite !(quantile_perm _ _ _ Hs).
    destruct (Series.quantile s' OptionB.q005) as [e5 | p5]; [discriminate|].
    cbn [bind].
    destruct (Series.quantile s' OptionB.q095) as [e95 | p95]; [discriminate|].
    cbn [bind ret]. intros H. injection H as <-.
    eexists. split; [reflexivity|].
    cbn [OptionB.percentile_5 OptionB.percentile_95
         OptionB.delta_5 OptionB.delta_95].
    repeat split.
Qed.

Lemma aggregates_order_insensitive_witness :
  OptionB.confidence_intervals
    (Some (pd_DataFrame (rows_of [7000; 9300; 7500]%Z)))
  = OptionB.confidence_intervals
      (Some (pd_DataFrame (rows_of [9300; 7000; 7500]%Z))).
Proof.
  apply (aggregates_order_insensitive demand_oracle (default_input 500 20 10 15)).
  cbn. apply perm_swap.
Defined.

(** ** The most common bottleneck *)

Definition by_count_desc (a b : string * nat) : Prop := (snd b <= snd a)%nat.

Lemma insert_by_count_In (e x : string * nat) (l : list (string * nat)) :
  In x (Series.insert_by_count e l) <-> x = e \/ In x l.
Proof.
  induction l as [|e' l IH]; cbn [Series.insert_by_count].
  - cbn. intuition.
  - destruct (snd e' <? snd e)%nat; cbn [In]; [intuition|].
    rewrite IH. intuition.
Qed.

Lemma insert_by_count_sorted (e : string * nat) (l : list (string * nat)) :
  StronglySorted by_count_desc l ->
  StronglySorted by_count_desc (Series.insert_by_count e l).
Proof.
  induction 1 as [|e' l Hs IH He']; cbn [Series.insert_by_count].
  - constructor; constructor.
  - destruct (Nat.ltb_spec (snd e') (snd e)) as [Hlt | Hge].
    + constructor; [constructor; assumption|].
      constructor; [unfold by_count_desc; lia|].
      rewrite Forall_forall in *. intros x Hx.
      specialize (He' x Hx). unfold by_count_desc in *. lia.
    + constructor; [exact IH|].
      rewrite Forall_forall in *. intros x Hx.
      apply insert_by_count_In in Hx as [-> | Hx];
        [exact Hge | apply He', Hx].
Qed.

Lemma fold_insert_spec (l acc : list (string * nat)) :
  StronglySorted by_count_desc acc ->
  StronglySorted by_count_desc
    (fold_left (fun acc e => Series.insert_by_count e acc) l acc) /\
  forall x, In x (fold_left (fun acc e => Series.insert_by_count e acc) l acc)
            <-> In x l \/ In x acc.
Proof.
  revert acc. induction l as [|e l IH]; intros acc Hacc; cbn [fold_left].
  - split; [exact Hacc | cbn; intuition].
  - destruct (IH _ (insert_by_count_sorted e acc Hacc)) as [Hs Hin].
    split; [exact Hs|]. intros x. rewrite Hin, insert_by_count_In.
    cbn [In]. intuition.
Qed.

Lemma value_counts_mode (s : list string) (b : string) (c : nat)
  (rest : list (string * nat)) :
  Series.value_counts s = (b, c) :: rest ->
  In b s /\ c = count_occ string_dec s b /\
  forall v, (count_occ string_dec s v <= c)%nat.
Proof.
  unfold Series.value_counts. intros E.
  destruct (fold_insert_spec
              (map (fun v => (v, count_occ string_dec s v)) (Series.distinct s))
              [] (SSorted_nil _)) as [Hs Hin].
  rewrite E in Hs, Hin.
  assert (Hb : In (b, c) (map (fun v => (v, count_occ string_dec s v))
                             (Series.distinct s))).
  { destruct (proj1 (Hin (b, c)) (or_introl eq_refl)) as [H | []]. exact H. }
  apply in_map_iff in Hb as (v & Ev & Hv). injection Ev as -> <-.
  apply (proj1 (distinct_In _ _)) in Hv.
  split; [exact Hv|]. split; [reflexivity|].
  intros w. destruct (in_dec string_dec w s) as [Hw | Hw].
  - assert (Hwin : In (w, count_occ string_dec s w)
                      ((b, count_occ string_dec s b) :: rest)).
    { apply Hin. left. apply in_map_iff. exists w. split; [reflexivity|].
      apply distinct_In, Hw. }
    destruct Hwin as [Ew | Hwin].
    + injection Ew as <-. lia.
    + inversion Hs as [|? ? _ Hall]; subst. rewrite Forall_forall in Hall.
      exact (Hall _ Hwin).
  - rewrite (proj1 (count_occ_not_In string_dec s w) Hw). lia.
Qed.

(** X8. The bottleneck the insights panel names as most common is one
    that occurs in the Dataset, no other bottleneck occurs more often,
    and the frequency reported with it is its share of the trials in
    percent, above 0 and at most 100. *)
Theorem most_common_bottleneck_is_mode (oracle : Oracle) (inp : OptionB.Input)
  (results : list Row) (base : OptResult) :
  results <> [] -> OptionB.baseline oracle inp = inr base ->
  let bs := map row_bottleneck results in
  exists ins pct,
    OptionB.insights oracle inp (Some (pd_DataFrame results)) = inr (Some ins) /\
    In (OptionB.most_common_bottleneck ins) bs /\
    (forall v, (count_occ string_dec bs v
                <= count_occ string_dec bs (OptionB.most_common_bottleneck ins))%nat) /\
    OptionB.bottleneck_pct ins = Some pct /\
    pct = qcn (count_occ string_dec bs (OptionB.most_common_bottleneck ins))
          / qcn (List.length results) * qc 100 /\
    0 < pct /\ pct <= qc 100.
Proof.
  intros Hne Hb bs.
  destruct (insights_spec oracle inp results base Hne Hb)
    as (m & p5 & p95 & b & c & rest & _ & _ & _ & Evc & Eins).
  cbv zeta in Eins.
  destruct (value_counts_mode _ _ _ _ Evc) as (Hin & Hc & Hmax).
  fold bs in Hin, Hc, Hmax.
  pose proof (length_pos _ Hne) as Hlen.
  assert (Hcpos : (0 < c)%nat).
  { rewrite Hc. apply count_occ_In, Hin. }
  assert (Hcle : (c <= List.length results)%nat).
  { rewrite Hc. unfold bs. rewrite <- (length_map row_bottleneck results).
    apply count_occ_bound. }
  eexists. exists (qcn c / qcn (List.length results) * qc 100).
  split; [exact Eins|].
  cbn [OptionB.most_common_bottleneck OptionB.bottleneck_pct].
  split; [exact Hin|]. split; [intros v; rewrite <- Hc; apply Hmax|].
  split.
  { unfold fdiv. replace (Qceqb (qcn (List.length results)) 0) with false.
    - reflexivity.
    - symmetry. apply Qceqb_neq, qcn_neq0, Hlen. }
  split; [rewrite <- Hc; reflexivity|].
  split; [|apply pct_bounds; assumption].
  pose proof (qcn_pos c Hcpos) as Hq. pose proof (qcn_pos _ Hlen) as Hn.
  qc_to_Q. unfold Qdiv.
  assert (Hi : (0 < / inject_Z (Z.of_nat (List.length results)))%Q)
    by (apply Qinv_lt_0_compat; exact Hn).
  set (i := (/ inject_Z (Z.of_nat (List.length results)))%Q) in *.
  set (cq := inject_Z (Z.of_nat c)) in *.
  change (inject_Z 100) with (100 # 1). nra.
Qed.

Lemma most_common_bottleneck_is_mode_witness :
  exists ins,
    OptionB.insights demand_oracle (default_input 500 20 10 15)
      (Some (pd_DataFrame skewed_results)) = inr (Some ins) /\
    In (OptionB.most_common_bottleneck ins) (map row_bottleneck skewed_results).
Proof.
  destruct (most_common_bottleneck_is_mode demand_oracle
              (default_input 500 20 10 15) skewed_results _
              ltac:(cbn; discriminate) eq_refl)
    as (ins & pct & E & Hin & _).
  exists ins. split; assumption.
Defined.

(** ** Zero uncertainty, end to end *)

Lemma within_point (t : Qc) (f : float) : within t t f -> f = Some t.
Proof.
  intros (v & -> & H1 & H2). f_equal. apply Qcle_antisym; assumption.
Qed.

(** X9. A run with zero uncertainty followed by the aggregation: the
    5th and the 95th percentile equal the baseline throughput, their
    deltas to the baseline are 0, and every row of the
    confidence-interval table has both bounds at the baseline throughput
    and Range 0. *)
Theorem zero_uncertainty_aggregates (oracle : Oracle) (inp : OptionB.Input)
  (b : OptResult) (g : OptionB.Rng) :
  zero_uncertainty inp -> above_floors inp -> (0 < OptionB.n_sims inp)%nat ->
  OptionB.baseline oracle inp = inr b ->
  exists df g' km table,
    OptionB.run_simulation oracle inp g = inr (df, g') /\
    OptionB.key_metrics oracle inp (Some df) = inr (Some km) /\
    OptionB.percentile_5 km = Some (total_throughput b) /\
    OptionB.percentile_95 km = Some (total_throughput b) /\
    OptionB.delta_5 km = Some 0 /\ OptionB.delta_95 km = Some 0 /\
    OptionB.confidence_intervals (Some df) = inr table /\
    List.length table = 5%nat /\
    forall row, In row table ->
      OptionB.Lower_Bound row = Some (total_throughput b) /\
      OptionB.Upper_Bound row = Some (total_throughput b) /\
      OptionB.Range row = Some 0.
Proof.
  intros Hz Hfl Hn Hb.
  set (tb := total_throughput b).
  set (results := repeat (OptionB.row_of b) (OptionB.n_sims inp)).
  assert (Hrun : OptionB.run_simulation oracle inp g
                 = inr (pd_DataFrame results, advance g (7 * OptionB.n_sims inp))).
  { unfold OptionB.run_simulation, OptionB.rbind.
    rewrite (trials_zero_uncertainty oracle inp b Hz Hfl Hb). reflexivity. }
  assert (Hne : results <> []).
  { unfold results. destruct (OptionB.n_sims inp); [lia | discriminate]. }
  assert (Hs : forall x, In x (map throughput results) -> tb <= x /\ x <= tb).
  { intros x Hx. apply in_map_iff in Hx as (r & <- & Hr).
    apply repeat_spec in Hr. subst r. split; apply Qcle_refl. }
  pose proof (map_nonempty throughput _ Hne) as Hsne.
  destruct (key_metrics_spec oracle inp results b Hne Hb)
    as (m & p5 & p95 & Em & E5 & E95 & _ & Ekm).
  destruct q005_q095 as (H0 & H1 & H2).
  assert (Hp5 : p5 = tb).
  { destruct (quantile_within _ OptionB.q005 tb tb Hsne H0
                (Qcle_trans _ _ _ H1 H2) Hs) as (f & Ef & Hf).
    rewrite E5 in Ef. injection Ef as <-. apply within_point in Hf.
    congruence. }
  assert (Hp95 : p95 = tb).
  { destruct (quantile_within _ OptionB.q095 tb tb Hsne
                (Qcle_trans _ _ _ H0 H1) H2 Hs) as (f & Ef & Hf).
    rewrite E95 in Ef. injection Ef as <-. apply within_point in Hf.
    congruence. }
  subst p5 p95.
  destruct (confidence_intervals_spec results Hne) as (table & E & Hc & Hok).
  eexists. eexists. eexists. exists table.
  split; [exact Hrun|]. split; [exact Ekm|].
  cbn [OptionB.percentile_5 OptionB.percentile_95
       OptionB.delta_5 OptionB.delta_95 fsub].
  fold tb. replace (tb - tb) with 0 by ring.
  do 4 (split; [reflexivity|]).
  split; [exact E|].
  split; [rewrite <- (length_map OptionB.Confidence), Hc; reflexivity|].
  intros row Hrow. rewrite Forall_forall in Hok.
  destruct (Hok row Hrow) as (El & Eu & l & u & Kl & Ku & _ & Kr).
  pose proof confidence_levels_range as Hlv.
  rewrite <- Hc, Forall_forall in Hlv.
  destruct (Hlv _ (in_map OptionB.Confidence _ _ Hrow)) as [Hc0 Hc100].
  assert (Hl : OptionB.Lower_Bound row = Some tb).
  { destruct (quantile_within _ (lower_level (OptionB.Confidence row)) tb tb Hsne)
      as (f & Ef & Hf); try assumption; try (unfold lower_level; qc_lra).
    rewrite El in Ef. injection Ef as <-. apply within_point, Hf. }
  assert (Hu : OptionB.Upper_Bound row = Some tb).
  { destruct (quantile_within _ (upper_level (OptionB.Confidence row)) tb tb Hsne)
      as (f & Ef & Hf); try assumption; try (unfold upper_level; qc_lra).
    rewrite Eu in Ef. injection Ef as <-. apply within_point, Hf. }
  split; [exact Hl|]. split; [exact Hu|].
  rewrite Kl in Hl. rewrite Ku in Hu. injection Hl as ->. injection Hu as ->.
  rewrite Kr. f_equal. ring.
Qed.

Lemma zero_uncertainty_aggregates_witness :
  exists df g' km,
    OptionB.run_simulation demand_oracle (default_input 500 0 0 0) (constant_rng 3)
    = inr (df, g') /\
    OptionB.key_metrics demand_oracle (default_input 500 0 0 0) (Some df)
    = inr (Some km) /\
    OptionB.delta_5 km = Some 0.
Proof.
  assert (Hz : zero_uncertainty (default_input 500 0 0 0))
    by (repeat split; reflexivity).
  assert (Hf : above_floors (default_input 500 0 0 0))
    by (repeat split; vm_compute; discriminate).
  assert (Hn : (0 < OptionB.n_sims (default_input 500 0 0 0))%nat)
    by (cbn; lia).
  destruct (zero_uncertainty_aggregates demand_oracle (default_input 500 0 0 0)
              _ (constant_rng 3) Hz Hf Hn eq_refl)
    as (df & g' & km & table & Hrun & Ekm & _ & _ & Hd & _).
  exists df, g', km. repeat split; assumption.
Defined.

(** X10. The two exceedance figures are ordered: with no target set and
    a non-negative baseline throughput, the chance of exceeding the
    baseline shown by the insights panel is never above the probability
    of achieving the target shown by the calculator. *)
Theorem insights_chance_below_calculator (oracle : Oracle) (inp : OptionB.Input)
  (results : list Row) (base : OptResult) :
  results <> [] -> OptionB.baseline oracle inp = inr base ->
  OptionB.target inp = None -> 0 <= total_throughput base ->
  exists pr ins e a,
    OptionB.probability_result oracle inp (Some (pd_DataFrame results))
    = inr (Some pr) /\
    OptionB.insights oracle inp (Some (pd_DataFrame results)) = inr (Some ins) /\
    OptionB.prob_exceed pr = Some e /\
    OptionB.prob_above_baseline ins = Some a /\
    0 <= a /\ a <= e /\ e <= qc 100.
Proof.
  intros Hne Hb Ht Hnn.
  pose proof (probability_result_spec oracle inp results base Hne Hb) as Ep.
  destruct (insights_spec oracle inp results base Hne Hb)
    as (m & p5 & p95 & b & c & rest & _ & _ & _ & _ & Ei).
  cbv zeta in Ep, Ei.
  pose proof (length_pos _ (map_nonempty throughput _ Hne)) as Hlen.
  do 4 eexists. split; [exact Ep|]. split; [exact Ei|].
  cbn [OptionB.prob_exceed OptionB.prob_above_baseline].
  do 2 (split; [reflexivity|]).
  split; [apply pct_bounds; [exact Hlen | apply count_le_length]|].
  split; [|apply pct_bounds; [exact Hlen | apply count_le_length]].
  apply pct_mono; [apply qcn_pos, Hlen|]. apply qcn_le, count_mono.
  intros x Hx. apply Qcltb_lt in Hx. apply Qcleb_le.
  unfold default_target. rewrite Ht.
  eapply Qcle_trans; [apply py_int_le, Hnn|]. apply Qclt_le_weak, Hx.
Qed.

Lemma insights_chance_below_calculator_witness :
  exists pr ins e a,
    OptionB.probability_result demand_oracle (default_input 500 20 10 15)
      (Some (pd_DataFrame skewed_results)) = inr (Some pr) /\
    OptionB.insights demand_oracle (default_input 500 20 10 15)
      (Some (pd_DataFrame skewed_results)) = inr (Some ins) /\
    OptionB.prob_exceed pr = Some e /\
    OptionB.prob_above_baseline ins = Some a /\ a <= e.
Proof.
  destruct (insights_chance_below_calculator demand_oracle
              (default_input 500 20 10 15) skewed_results _
              ltac:(cbn; discriminate) eq_refl eq_refl
              ltac:(vm_compute; discriminate))
    as (pr & ins & e & a & Ep & Ei & He & Ha & _ & Hle & _).
  exists pr, ins, e, a. repeat split; assumption.
Defined.

(* ------------------------------------------------------------------ *)
(** * Further properties of the scenario comparator *)

Lemma pct_nonneg (x n : Qc) : 0 <= x -> 0 < n -> 0 <= x / n * qc 100.
Proof.
  intros Hx Hn. replace 0 with (0 / n * qc 100) at 1 by (unfold Qcdiv; ring).
  apply pct_mono; assumption.
Qed.

(** X11. The insights name as best the first scenario whose throughput
    is the maximum of the three, which no scenario exceeds; the
    Improvement box is left out exactly when scenario 1 attains that
    maximum, and when it is shown the improvement is the positive gap
    to scenario 1 and its percentage is not negative. *)
Theorem best_scenario_selection (list_set : list string -> list string)
  (results : OptionA.Results) :
  OptionA.set_iteration list_set ->
  let t1 := OptionA.tp (OptionA.s1 results) in
  let t2 := OptionA.tp (OptionA.s2 results) in
  let t3 := OptionA.tp (OptionA.s3 results) in
  exists ins,
    OptionA.insights list_set results = inr ins /\
    OptionA.best_throughput ins = py_max3 t1 t2 t3 /\
    t1 <= OptionA.best_throughput ins /\ t2 <= OptionA.best_throughput ins /\
    t3 <= OptionA.best_throughput ins /\
    (t1 = py_max3 t1 t2 t3 ->
     OptionA.best_name ins = OptionA.name (OptionA.s1 results) /\
     OptionA.improvement_box ins = None) /\
    (t1 <> py_max3 t1 t2 t3 ->
     (t2 = py_max3 t1 t2 t3 ->
      OptionA.best_name ins = OptionA.name (OptionA.s2 results)) /\
     (t2 <> py_max3 t1 t2 t3 ->
      OptionA.best_name ins = OptionA.name (OptionA.s3 results)) /\
     exists improvement pct,
       OptionA.improvement_box ins = Some (improvement, pct) /\
       improvement = py_max3 t1 t2 t3 - t1 /\ 0 < improvement /\ 0 <= pct).
Proof.
  intros Hset t1 t2 t3.
  destruct (insights_returns list_set results Hset)
    as (i & best & box & Ei & Enth & Htp & _ & Eins).
  fold t1 t2 t3 in Ei, Htp, Eins.
  destruct (py_max3_upper t1 t2 t3) as (U1 & U2 & U3).
  destruct (best_idx_spec t1 t2 t3) as (i' & Ei' & Hi).
  rewrite Ei in Ei'. injection Ei' as <-.
  eexists. split; [exact Eins|].
  cbn [OptionA.best_throughput OptionA.best_name OptionA.improvement_box].
  rewrite Htp. split; [reflexivity|]. do 3 (split; [assumption|]).
  destruct Hi as [[-> H1] | [[-> (N1 & H2)] | [-> (N1 & N2 & H3)]]];
    cbn in Enth; injection Enth as <-; cbn [Nat.eqb negb].
  - split; [intros _; split; reflexivity | intros N; contradiction].
  - split; [intros E; contradiction|]. intros _.
    split; [intros _; reflexivity|]. split; [intros N; contradiction|].
    eexists. eexists. split; [reflexivity|]. split; [reflexivity|].
    assert (Hpos : 0 < py_max3 t1 t2 t3 - t1).
    { assert (t1 < py_max3 t1 t2 t3)
        by (apply Qcle_lt_or_eq in U1 as [H | H]; [exact H | contradiction]).
      qc_to_Q. lra. }
    split; [exact Hpos|].
    destruct (Qcltb 0 t1) eqn:E1; [|apply Qcle_refl].
    apply Qcltb_lt in E1.
    apply pct_nonneg; [apply Qclt_le_weak, Hpos | exact E1].
  - split; [intros E; contradiction|]. intros _.
    split; [intros E; contradiction|]. split; [intros _; reflexivity|].
    eexists. eexists. split; [reflexivity|]. split; [reflexivity|].
    assert (Hpos : 0 < py_max3 t1 t2 t3 - t1).
    { assert (t1 < py_max3 t1 t2 t3)
        by (apply Qcle_lt_or_eq in U1 as [H | H]; [exact H | contradiction]).
      qc_to_Q. lra. }
    split; [exact Hpos|].
    destruct (Qcltb 0 t1) eqn:E1; [|apply Qcle_refl].
    apply Qcltb_lt in E1.
    apply pct_nonneg; [apply Qclt_le_weak, Hpos | exact E1].
Qed.

Lemma best_scenario_selection_witness :
  exists ins,
    OptionA.insights first_seen_set
      (example_results 1000 1200 1200 "machining" "machining" "assembly")
    = inr ins /\
    OptionA.best_throughput ins
    = py_max3 (qc 1000) (qc 1200) (qc 1200).
Proof.
  destruct (best_scenario_selection first_seen_set
              (example_results 1000 1200 1200 "machining" "machining" "assembly")
              first_seen_set_iteration)
    as (ins & E & Hb & _).
  exists ins. split; assumption.
Defined.

(** X12. The three cards and the throughput chart agree: at least one
    card is always marked best, each card shows its own scenario, and
    the chart lists the three scenarios in order with a bar highlighted
    exactly when that scenario's card is marked best. *)
Theorem cards_and_chart_agree (results : OptionA.Results) :
  let c1 := OptionA.scenario1_card results in
  let c2 := OptionA.scenario2_card results in
  let c3 := OptionA.scenario3_card results in
  OptionA.card_best c1 || OptionA.card_best c2 || OptionA.card_best c3 = true /\
  OptionA.card_result c1 = OptionA.s1 results /\
  OptionA.card_result c2 = OptionA.s2 results /\
  OptionA.card_result c3 = OptionA.s3 results /\
  OptionA.throughput_chart results
  = [(OptionA.name (OptionA.s1 results), OptionA.tp (OptionA.s1 results),
      OptionA.card_best c1);
     (OptionA.name (OptionA.s2 results), OptionA.tp (OptionA.s2 results),
      OptionA.card_best c2);
     (OptionA.name (OptionA.s3 results), OptionA.tp (OptionA.s3 results),
      OptionA.card_best c3)].
Proof.
  cbv zeta. split; [|repeat split].
  unfold OptionA.scenario1_card, OptionA.scenario2_card, OptionA.scenario3_card,
    OptionA.create_scenario_card_html. cbn [OptionA.card_best].
  set (t1 := OptionA.tp (OptionA.s1 results)).
  set (t2 := OptionA.tp (OptionA.s2 results)).
  set (t3 := OptionA.tp (OptionA.s3 results)).
  destruct (py_max3_cases t1 t2 t3) as [H | [H | H]]; rewrite H;
    rewrite Qceqb_refl; rewrite ?Bool.orb_true_r; reflexivity.
Qed.

(** The oracle arguments of one scenario panel. *)
Definition params_of (p : OptionA.ScenarioInput) : Scenario :=
  {| heat_treatment_capacity := OptionA.in_heat p;
     machining_capacity := OptionA.in_mach p;
     assembly_capacity := OptionA.in_assy p;
     demand_a := OptionA.in_dema p;
     demand_b := OptionA.in_demb p;
     profit_a := OptionA.in_profa p;
     profit_b := OptionA.in_profb p |}.

(** X13. The comparison is all or nothing: [solve_scenarios] returns
    exactly when the oracle solves all three panels, each result then
    carries the panel's name and the oracle's answer for that panel's
    own parameters, and otherwise the exception of the first failing
    panel is raised. *)
Theorem solve_scenarios_all_or_nothing (oracle : Oracle) (inp : OptionA.Input) :
  (forall results,
     OptionA.solve_scenarios oracle inp = inr results <->
     exists r1 r2 r3,
       oracle (params_of (OptionA.panel1 inp)) = inr r1 /\
       oracle (params_of (OptionA.panel2 inp)) = inr r2 /\
       oracle (params_of (OptionA.panel3 inp)) = inr r3 /\
       results
       = {| OptionA.s1 := {| OptionA.name := OptionA.in_name (OptionA.panel1 inp);
                             OptionA.result := r1 |};
            OptionA.s2 := {| OptionA.name := OptionA.in_name (OptionA.panel2 inp);
                             OptionA.result := r2 |};
            OptionA.s3 := {| OptionA.name := OptionA.in_name (OptionA.panel3 inp);
                             OptionA.result := r3 |} |}) /\
  (forall e,
     OptionA.solve_scenarios oracle inp = inl e <->
     oracle (params_of (OptionA.panel1 inp)) = inl e \/
     (exists r1, oracle (params_of (OptionA.panel1 inp)) = inr r1 /\
                 oracle (params_of (OptionA.panel2 inp)) = inl e) \/
     (exists r1 r2, oracle (params_of (OptionA.panel1 inp)) = inr r1 /\
                    oracle (params_of (OptionA.panel2 inp)) = inr r2 /\
                    oracle (params_of (OptionA.panel3 inp)) = inl e)).
Proof.
  unfold OptionA.solve_scenarios, OptionA.solve.
  fold (params_of (OptionA.panel1 inp)) (params_of (OptionA.panel2 inp))
       (params_of (OptionA.panel3 inp)).
  destruct (oracle (params_of (OptionA.panel1 inp))) as [e1 | r1];
    [|destruct (oracle (params_of (OptionA.panel2 inp))) as [e2 | r2];
      [|destruct (oracle (params_of (OptionA.panel3 inp))) as [e3 | r3]]];
    cbn [bind ret]; split.
  - intros results. split; [intros H; discriminate H|].
    intros (r1 & r2 & r3 & H & _). discriminate H.
  - intros e. split.
    + intros H. injection H as <-. left. reflexivity.
    + intros [H | [(r1 & H & _) | (r1 & r2 & H & _)]];
        [injection H as <-; reflexivity | discriminate H | discriminate H].
  - intros results. split; [intros H; discriminate H|].
    intros (r1' & r2 & r3 & _ & H & _). discriminate H.
  - intros e. split.
    + intros H. injection H as <-. right; left. eauto.
    + intros [H | [(r1' & _ & H) | (r1' & r2 & _ & H & _)]];
        [discriminate H | injection H as <-; reflexivity | discriminate H].
  - intros results. split; [intros H; discriminate H|].
    intros (r1' & r2' & r3 & _ & _ & H & _). discriminate H.
  - intros e. split.
    + intros H. injection H as <-. right; right. eauto.
    + intros [H | [(r1' & _ & H) | (r1' & r2' & _ & _ & H)]];
        [discriminate H | discriminate H | injection H as <-; reflexivity].
  - intros results. split.
    + intros H. injection H as <-. exists r1, r2, r3. repeat split.
    + intros (r1' & r2' & r3' & H1 & H2 & H3 & ->).
      injection H1 as <-. injection H2 as <-. injection H3 as <-. reflexivity.
  - intros e. split; [intros H; discriminate H|].
    intros [H | [(r1' & _ & H) | (r1' & r2' & _ & _ & H)]]; discriminate H.
Qed.

(* ------------------------------------------------------------------ *)
(** * The panels of the simulation taken together *)

(** X14. The key metrics and the insights panel never disagree: on a
    non-empty Dataset the insights' worst and best case are the 5th and
    95th percentile of the key metrics and its mean delta is theirs;
    the worst case is at most the best case, and for a positive
    baseline so are their percentages. *)
Theorem panels_agree (oracle : Oracle) (inp : OptionB.Input)
  (results : list Row) (base : OptResult) :
  results <> [] -> OptionB.baseline oracle inp = inr base ->
  exists km ins p5 p95,
    OptionB.key_metrics oracle inp (Some (pd_DataFrame results))
    = inr (Some km) /\
    OptionB.insights oracle inp (Some (pd_DataFrame results)) = inr (Some ins) /\
    OptionB.worst_case ins = OptionB.percentile_5 km /\
    OptionB.best_case ins = OptionB.percentile_95 km /\
    OptionB.mean_vs_baseline ins = OptionB.delta_mean km /\
    OptionB.worst_case ins = Some p5 /\ OptionB.best_case ins = Some p95 /\
    p5 <= p95 /\
    (0 < total_throughput base ->
     exists w b, OptionB.worst_case_pct ins = Some w /\
                 OptionB.best_case_pct ins = Some b /\ w <= b).
Proof.
  intros Hne Hb.
  destruct (key_metrics_spec oracle inp results base Hne Hb)
    as (m & p5 & p95 & Em & E5 & E95 & Hle & Ekm).
  destruct (insights_spec oracle inp results base Hne Hb)
    as (m' & q5 & q95 & b & c & rest & Em' & E5' & E95' & _ & Eins).
  rewrite Em in Em'. rewrite E5 in E5'. rewrite E95 in E95'.
  injection Em' as <-. injection E5' as <-. injection E95' as <-.
  eexists. eexists. exists p5, p95.
  split; [exact Ekm|]. split; [exact Eins|].
  cbn [OptionB.worst_case OptionB.best_case OptionB.mean_vs_baseline
       OptionB.percentile_5 OptionB.percentile_95 OptionB.delta_mean
       OptionB.worst_case_pct OptionB.best_case_pct].
  do 5 (split; [reflexivity|]). split; [exact Hle|].
  intros Hpos.
  assert (Hnz : total_throughput base <> 0).
  { intros E. rewrite E in Hpos. exact (Qclt_not_eq _ _ Hpos eq_refl). }
  rewrite !pct_vs_nonzero by exact Hnz.
  eexists. eexists. split; [reflexivity|]. split; [reflexivity|].
  apply pct_mono; [exact Hpos|]. qc_to_Q. lra.
Qed.

Lemma panels_agree_witness :
  exists km ins,
    OptionB.key_metrics demand_oracle (default_input 500 20 10 15)
      (Some (pd_DataFrame skewed_results)) = inr (Some km) /\
    OptionB.insights demand_oracle (default_input 500 20 10 15)
      (Some (pd_DataFrame skewed_results)) = inr (Some ins) /\
    OptionB.worst_case ins = OptionB.percentile_5 km.
Proof.
  destruct (panels_agree demand_oracle (default_input 500 20 10 15)
              skewed_results _ ltac:(cbn; discriminate) eq_refl)
    as (km & ins & p5 & p95 & Ekm & Eins & Hw & _).
  exists km, ins. repeat split; assumption.
Defined.

Lemma square_nonneg (d : Qc) : 0 <= d * d.
Proof.
  qc_to_Q. destruct (Qlt_le_dec (this d) 0) as [H | H].
  - setoid_replace (this d * this d)%Q with ((- this d) * (- this d))%Q by ring.
    apply Qmult_le_0_compat; lra.
  - apply Qmult_le_0_compat; exact H.
Qed.

Lemma sum_nonneg (l : list Qc) : (forall x, In x l -> 0 <= x) -> 0 <= sum l.
Proof.
  intros H. pose proof (sum_lower l 0 H) as K.
  replace (qcn (List.length l) * 0) with 0 in K by ring. exact K.
Qed.

(** X15. The risk figure needs two trials: on a Dataset of a single
    trial the variance behind the standard deviation is not a number,
    while the mean and both percentiles are that trial's throughput;
    with two or more trials the variance is a number and is not
    negative. *)
Theorem risk_needs_two_trials (oracle : Oracle) (inp : OptionB.Input)
  (results : list Row) (base : OptResult) :
  results <> [] -> OptionB.baseline oracle inp = inr base ->
  exists km,
    OptionB.key_metrics oracle inp (Some (pd_DataFrame results))
    = inr (Some km) /\
    (forall r, results = [r] ->
       OptionB.std_throughput_squared km = None /\
       OptionB.mean_throughput km = Some (throughput r) /\
       OptionB.percentile_5 km = Some (throughput r) /\
       OptionB.percentile_95 km = Some (throughput r)) /\
    ((2 <= List.length results)%nat ->
     exists v, OptionB.std_throughput_squared km = Some v /\ 0 <= v).
Proof.
  intros Hne Hb.
  destruct (key_metrics_spec oracle inp results base Hne Hb)
    as (m & p5 & p95 & Em & E5 & E95 & _ & Ekm).
  eexists. split; [exact Ekm|].
  cbn [OptionB.std_throughput_squared OptionB.mean_throughput
       OptionB.percentile_5 OptionB.percentile_95].
  pose proof (map_nonempty throughput _ Hne) as Hsne.
  split.
  - intros r ->. split; [reflexivity|].
    assert (Hs : forall x, In x (map throughput [r]) ->
                           throughput r <= x /\ x <= throughput r).
    { intros x [<- | []]. split; apply Qcle_refl. }
    destruct q005_q095 as (H0 & H1 & H2).
    destruct (mean_between _ _ _ Hsne Hs) as (m' & Em' & Hm1 & Hm2).
    rewrite Em in Em'. injection Em' as <-.
    destruct (quantile_within _ OptionB.q005 _ _ Hsne H0
                (Qcle_trans _ _ _ H1 H2) Hs) as (f5 & Ef5 & Hf5).
    destruct (quantile_within _ OptionB.q095 _ _ Hsne
                (Qcle_trans _ _ _ H0 H1) H2 Hs) as (f95 & Ef95 & Hf95).
    rewrite E5 in Ef5. rewrite E95 in Ef95.
    injection Ef5 as <-. injection Ef95 as <-.
    apply within_point in Hf5, Hf95.
    split; [f_equal; apply Qcle_antisym; assumption|]. split; assumption.
  - intros Hlen. unfold Series.var. rewrite Em, length_map.
    destruct (Nat.leb_spec (List.length results) 1) as [H | H]; [lia|].
    eexists. split; [reflexivity|].
    assert (Hsq : 0 <= sum (map (fun x => (x - m) * (x - m))
                              (map throughput results))).
    { apply sum_nonneg. intros y Hy. apply in_map_iff in Hy as (x & <- & _).
      apply square_nonneg. }
    pose proof (qcn_pos (List.length results - 1) ltac:(lia)) as Hn.
    qc_to_Q. apply Qle_shift_div_l; [exact Hn | lra].
Qed.

Lemma risk_needs_two_trials_witness :
  exists km v,
    OptionB.key_metrics demand_oracle (default_input 500 20 10 15)
      (Some (pd_DataFrame skewed_results)) = inr (Some km) /\
    OptionB.std_throughput_squared km = Some v /\ 0 <= v.
Proof.
  destruct (risk_needs_two_trials demand_oracle (default_input 500 20 10 15)
              skewed_results _ ltac:(cbn; discriminate) eq_refl)
    as (km & Ekm & _ & H).
  destruct (H ltac:(cbn; lia)) as (v & Ev & Hv).
  exists km, v. repeat split; assumption.
Defined.

(** ** Progress reporting *)

Lemma progress_updates_S (n : nat) :
  OptionB.progress_updates (S n)
  = OptionB.progress_updates n ++ (if (n mod 50 =? 0)%nat then [n] else []).
Proof.
  unfold OptionB.progress_updates. rewrite seq_S, filter_app. reflexivity.
Qed.

Lemma ceil_div_50_S (n : nat) :
  ((S n + 49) / 50 = (n + 49) / 50 + (if (n mod 50 =? 0) then 1 else 0))%nat.
Proof.
  pose proof (Nat.div_mod_eq n 50) as E.
  pose proof (Nat.mod_upper_bound n 50 ltac:(lia)) as Hm.
  set (q := (n / 50)%nat) in *. set (r := (n mod 50)%nat) in *.
  destruct (Nat.eqb_spec r 0) as [Hr | Hr].
  - replace (S n + 49)%nat with (1 * 50 + (q * 50 + 0))%nat by lia.
    replace (n + 49)%nat with (q * 50 + 49)%nat by lia.
    rewrite Nat.div_add_l by lia.
    rewrite (Nat.div_add_l q 50 0) by lia.
    rewrite (Nat.div_add_l q 50 49) by lia.
    cbn. lia.
  - replace (S n + 49)%nat with ((q + 1) * 50 + r)%nat by lia.
    replace (n + 49)%nat with ((q + 1) * 50 + (r - 1))%nat by lia.
    rewrite !Nat.div_add_l by lia.
    rewrite !Nat.div_small by lia. lia.
Qed.

Lemma sorted_snoc (l : list nat) (n : nat) :
  StronglySorted lt l -> Forall (fun i => (i < n)%nat) l ->
  StronglySorted lt (l ++ [n]).
Proof.
  induction 1 as [|x l Hs IH Hx]; intros Hall; cbn [app].
  - constructor; constructor.
  - inversion Hall; subst. constructor; [apply IH; assumption|].
    apply Forall_app. split; [exact Hx | constructor; [assumption | constructor]].
Qed.

Lemma progress_below (n : nat) :
  Forall (fun i => (i < n)%nat) (OptionB.progress_updates n).
Proof.
  rewrite Forall_forall. intros i Hi. unfold OptionB.progress_updates in Hi.
  apply filter_In in Hi as [Hi _]. apply in_seq in Hi. lia.
Qed.

Lemma progress_updates_spec (m : nat) :
  (forall i, In i (OptionB.progress_updates m)
             <-> (i < m)%nat /\ exists k, i = (50 * k)%nat) /\
  StronglySorted lt (OptionB.progress_updates m) /\
  List.length (OptionB.progress_updates m) = ((m + 49) / 50)%nat.
Proof.
  split; [|split].
  - intros i. unfold OptionB.progress_updates.
    rewrite filter_In, in_seq, Nat.eqb_eq. split.
    + intros [[_ Hi] Hm]. split; [lia|].
      exists (i / 50)%nat. pose proof (Nat.div_mod_eq i 50). lia.
    + intros [Hi (k & ->)]. split; [lia|].
      rewrite Nat.mul_comm. apply Nat.Div0.mod_mul.
  - induction m as [|n IH]; [constructor|].
    rewrite progress_updates_S.
    destruct (n mod 50 =? 0)%nat; [|rewrite app_nil_r; exact IH].
    apply sorted_snoc; [exact IH | apply progress_below].
  - induction m as [|n IH]; [reflexivity|].
    rewrite progress_updates_S, length_app, IH, ceil_div_50_S.
    destruct (n mod 50 =? 0)%nat; reflexivity.
Qed.

Lemma flat_map_filter {A B} (p : A -> bool) (f : A -> B) (l : list A) :
  flat_map (fun a => if p a then [f a] else []) l = map f (filter p l).
Proof.
  induction l as [|a l IH]; [reflexivity|].
  cbn [flat_map filter]. rewrite IH. destruct (p a); reflexivity.
Qed.

Lemma updates_from_0 (m n_sims : nat) :
  flat_map (fun i => OptionB.update_progress i n_sims) (seq 0 m)
  = map (fun i => OptionB.SetValue i n_sims) (OptionB.progress_updates m).
Proof. apply flat_map_filter. Qed.

(** Dropping the calls of the traced loop gives the loop. *)
Lemma loop_traced_result (oracle : Oracle) (inp : OptionB.Input) :
  forall n i results g,
    snd (OptionB.loop_traced oracle inp i n results g)
    = OptionB.trials oracle inp n results g.
Proof.
  induction n as [|n IH]; intros i results g; [reflexivity|].
  cbn [OptionB.loop_traced OptionB.trials]. unfold OptionB.rbind at 1.
  destruct (OptionB.trial oracle inp results g) as [e | [rs g']];
    [reflexivity|].
  specialize (IH (S i) rs g').
  destruct (OptionB.loop_traced oracle inp (S i) n rs g') as [calls r].
  exact IH.
Qed.

(** The calls of the traced loop: those of all [n] iterations when the
    loop returns, those of the iterations up to the raising one when it
    raises. *)
Lemma loop_traced_calls (oracle : Oracle) (inp : OptionB.Input) :
  forall n i results g,
    let upd := fun j => OptionB.update_progress j (OptionB.n_sims inp) in
    match OptionB.trials oracle inp n results g with
    | inr _ =>
        fst (OptionB.loop_traced oracle inp i n results g)
        = flat_map upd (seq i n)
    | inl e =>
        exists k rs g1,
          (k < n)%nat /\
          OptionB.trials oracle inp k results g = inr (rs, g1) /\
          OptionB.trial oracle inp rs g1 = inl e /\
          fst (OptionB.loop_traced oracle inp i n results g)
          = flat_map upd (seq i (S k))
    end.
Proof.
  induction n as [|n IH]; intros i results g upd; [reflexivity|].
  cbn [OptionB.loop_traced OptionB.trials]. unfold OptionB.rbind at 1.
  destruct (OptionB.trial oracle inp results g) as [e | [rs g']] eqn:Et.
  - exists 0%nat, results, g. split; [lia|]. split; [reflexivity|].
    split; [exact Et|]. cbn [fst seq flat_map]. rewrite app_nil_r. reflexivity.
  - specialize (IH (S i) rs g'). cbv zeta in IH. fold upd in IH.
    destruct (OptionB.loop_traced oracle inp (S i) n rs g') as [calls r].
    cbn [fst] in *.
    destruct (OptionB.trials oracle inp n rs g') as [e | p].
    + destruct IH as (k & rs1 & g1 & Hk & Ht & Htr & Hc).
      exists (S k), rs1, g1. split; [lia|]. split.
      { cbn [OptionB.trials]. unfold OptionB.rbind at 1. rewrite Et. exact Ht. }
      split; [exact Htr|]. rewrite Hc. reflexivity.
    + rewrite IH. reflexivity.
Qed.

(** X16. The calls on the progress bar during [run_simulation], which
    they do not influence: first the message set before the loop, then
    one update for each of the iterations numbered 0, 50, 100, ... that
    were started, in increasing order and for no other.  A run that
    returns has started all [n_sims] iterations and made
    [1 + ceil(n_sims / 50)] calls; a run that raises in iteration [k]
    has started [k + 1] of them and made [1 + ceil((k + 1) / 50)]. *)
Theorem progress_cadence (oracle : Oracle) (inp : OptionB.Input)
  (g : OptionB.Rng) :
  snd (OptionB.run_simulation_traced oracle inp g)
  = OptionB.run_simulation oracle inp g /\
  exists m,
    (m <= OptionB.n_sims inp)%nat /\
    fst (OptionB.run_simulation_traced oracle inp g)
    = OptionB.SetMessage
      :: map (fun i => OptionB.SetValue i (OptionB.n_sims inp))
           (OptionB.progress_updates m) /\
    List.length (fst (OptionB.run_simulation_traced oracle inp g))
    = S ((m + 49) / 50) /\
    (forall i, In i (OptionB.progress_updates m)
               <-> (i < m)%nat /\ exists j, i = (50 * j)%nat) /\
    StronglySorted lt (OptionB.progress_updates m) /\
    match OptionB.run_simulation oracle inp g with
    | inr (df, _) => m = OptionB.n_sims inp /\ len df = m
    | inl e =>
        exists k rs g1,
          m = S k /\
          OptionB.trials oracle inp k [] g = inr (rs, g1) /\
          OptionB.trial oracle inp rs g1 = inl e
    end.
Proof.
  pose proof (loop_traced_result oracle inp (OptionB.n_sims inp) 0 [] g) as Hres.
  pose proof (loop_traced_calls oracle inp (OptionB.n_sims inp) 0 [] g) as Hcalls.
  cbv zeta in Hcalls.
  unfold OptionB.run_simulation_traced, OptionB.run_simulation, OptionB.rbind.
  destruct (OptionB.loop_traced oracle inp 0 (OptionB.n_sims inp) [] g)
    as [calls r].
  cbn [fst snd] in *. subst r.
  split.
  { destruct (OptionB.trials oracle inp (OptionB.n_sims inp) [] g)
      as [e | [rs g']]; reflexivity. }
  assert (Hm : exists m,
             (m <= OptionB.n_sims inp)%nat /\
             calls = map (fun i => OptionB.SetValue i (OptionB.n_sims inp))
                       (OptionB.progress_updates m) /\
             match OptionB.trials oracle inp (OptionB.n_sims inp) [] g with
             | inr (rs, _) =>
                 m = OptionB.n_sims inp /\ List.length rs = m
             | inl e =>
                 exists k rs g1,
                   m = S k /\
                   OptionB.trials oracle inp k [] g = inr (rs, g1) /\
                   OptionB.trial oracle inp rs g1 = inl e
             end).
  { pose proof (trials_closed_form oracle inp (OptionB.n_sims inp) [] g) as Hcf.
    destruct (OptionB.trials oracle inp (OptionB.n_sims inp) [] g)
      as [e | [rs g']].
    - destruct Hcalls as (k & rs & g1 & Hk & Ht & Htr & Hc).
      exists (S k). split; [lia|]. split; [rewrite Hc; apply updates_from_0|].
      exists k, rs, g1. repeat split; assumption.
    - exists (OptionB.n_sims inp). split; [lia|].
      split; [rewrite Hcalls; apply updates_from_0|].
      destruct (Hcf rs g' eq_refl) as (_ & new & -> & Hl & _).
      split; [reflexivity | exact Hl]. }
  destruct Hm as (m & Hle & Hc & Hcase).
  destruct (progress_updates_spec m) as (Hin & Hsorted & Hlen).
  exists m. split; [exact Hle|]. split; [rewrite Hc; reflexivity|].
  split; [cbn [List.length]; rewrite Hc, length_map, Hlen; reflexivity|].
  split; [exact Hin|]. split; [exact Hsorted|].
  destruct (OptionB.trials oracle inp (OptionB.n_sims inp) [] g)
    as [e | [rs g']]; [exact Hcase|].
  destruct Hcase as [-> Hl]. split; [reflexivity|].
  unfold len. destruct rs; cbn [pd_DataFrame rows]; exact Hl.
Qed.

(** A generator delivering [3] for the first [k] variates and [-1000]
    afterwards. *)
Definition switching_rng (k : nat) : OptionB.Rng :=
  {| OptionB.tape := fun i => if (i <? k)%nat then qc 3 else qc (-1000);
     OptionB.pos := 0 |}.

(** A run of 120 trials whose trial 50 has no solution: three calls
    instead of the four of a complete run. *)
Lemma progress_of_aborted_run :
  OptionB.run_simulation_traced picky_oracle (default_input 120 20 10 15)
    (switching_rng 350)
  = ([OptionB.SetMessage; OptionB.SetValue 0 120; OptionB.SetValue 50 120],
     inl OracleError).
Proof. vm_compute. reflexivity. Qed.
